(** * MapReduce word-count demo (src/proj/src/App.jsx): a shallow embedding

    The component [MapReduceDemo] keeps its whole computation in five
    functions: [splitTextIntoChunks], [mapFunction], [shufflePhase],
    [reduceFunction] and [runMapReduce].  They are embedded below as Rocq
    functions, in the order of the source.

    Conventions of the embedding.
    - A JavaScript string is a [string]; every [ascii] stands for the UTF-16
      code unit of the same number, so the texts covered are those over
      U+0000..U+00FF.  On that range [\s], [trim] and [toLowerCase] are
      given in full.
    - A JavaScript number that holds an integer is a [Z]; lengths, counts and
      mapper counts stay far below 2^53, where the arithmetic of the source
      is exact ([NaN] and larger numbers are outside the embedding).
    - A plain object literal [{}] used as a dictionary is a [gmap] of its own
      properties, read through [Object.prototype] exactly as the source reads
      it (see [OwnOrInherited]).
    - [await] only delays; [Promise.all] keeps the order of its argument, so
      the asynchronous calls are embedded as plain function calls.  The log
      lines (wall-clock time stamps) are not part of the embedding. *)

From Stdlib Require Import ZArith Ascii String List Lia Permutation.
From Stdlib Require Import Numbers.DecimalString.
From stdpp Require Import base option list gmap strings fin_maps.

Local Open Scope string_scope.
Local Open Scope list_scope.
Local Open Scope Z_scope.

(** ** Strings *)

Module JsString.

(** The characters matched by [\s] (and stripped by [trim]) whose code is
    below 256: TAB, LF, VT, FF, CR, SPACE and NO-BREAK SPACE. *)
Definition isWhiteSpace (c : ascii) : bool :=
  match c with
  | "009" | "010" | "011" | "012" | "013" | " " | "160" => true
  | _ => false
  end%char.

(** [toLowerCase] on one code unit below 256: A..Z and the capital letters
    U+00C0..U+00DE (U+00D7, the multiplication sign, apart) move up by 32. *)
Definition lowerChar (c : ascii) : ascii :=
  let k := nat_of_ascii c in
  if (((65 <=? k) && (k <=? 90)) ||
      ((192 <=? k) && (k <=? 222) && negb (k =? 215)))%nat
  then ascii_of_nat (k + 32) else c.

Fixpoint toLowerCase (s : string) : string :=
  match s with
  | EmptyString => EmptyString
  | String c r => String (lowerChar c) (toLowerCase r)
  end.

Fixpoint trimStart (s : string) : string :=
  match s with
  | EmptyString => EmptyString
  | String c r => if isWhiteSpace c then trimStart r else s
  end.

Fixpoint trimEnd (s : string) : string :=
  match s with
  | EmptyString => EmptyString
  | String c r =>
      match trimEnd r with
      | EmptyString => if isWhiteSpace c then EmptyString else String c EmptyString
      | r' => String c r'
      end
  end.

Definition trim (s : string) : string := trimEnd (trimStart s).

(** [s.split(/\s+/)].  The scan of the source string keeps the piece being
    read at the head of the result; [inRun] tells that the previous
    character belonged to a separator already accounted for.  The empty
    string gives [[""]], a leading or trailing separator gives an empty
    first or last piece. *)
Fixpoint splitFrom (inRun : bool) (s : string) : list string :=
  match s with
  | EmptyString => [EmptyString]
  | String c r =>
      if isWhiteSpace c
      then (if inRun then splitFrom true r else EmptyString :: splitFrom true r)
      else match splitFrom false r with
           | w :: ws => String c w :: ws
           | [] => [String c EmptyString]
           end
  end.

Definition split (s : string) : list string := splitFrom false s.

(** [ws.join(' ')]. *)
Fixpoint join (ws : list string) : string :=
  match ws with
  | [] => EmptyString
  | [w] => w
  | w :: rest => w +:+ String " "%char (join rest)
  end.

(** [if (word)]: a string is truthy when it is not empty. *)
Definition truthy (s : string) : bool :=
  match s with EmptyString => false | _ => true end.

(** [words.slice(start, end)] for [0 <= start]. *)
Definition slice {A} (start stop : Z) (l : list A) : list A :=
  take (Z.to_nat (stop - start)) (drop (Z.to_nat start) l).

(** Number to string, for integers. *)
Definition ofNumber (z : Z) : string := NilZero.string_of_int (Z.to_int z).

(** A string without any white space character. *)
Fixpoint spaceFree (s : string) : bool :=
  match s with
  | EmptyString => true
  | String c r => negb (isWhiteSpace c) && spaceFree r
  end.

End JsString.

Import JsString.

(** ** The master: [splitTextIntoChunks] *)

Record Chunk := mkChunk { id : Z; text : string }.

(** [Math.ceil(a / b)]; read only where [0 < b]. *)
Definition ceilDiv (a b : Z) : Z := - ((- a) / b).

Definition splitTextIntoChunks (inputText : string) (numChunks : Z) : list Chunk :=
  let words := split (trim inputText) in
  let len := Z.of_nat (length words) in
  let chunkSize := ceilDiv len numChunks in
  flat_map
    (fun i =>
       let start := i * chunkSize in
       let stop := Z.min (start + chunkSize) len in
       if start <? len
       then [ {| id := i; text := join (slice start stop words) |} ]
       else [])
    (seqZ 0 numChunks).

(** ** Plain objects read as dictionaries *)

(** A JavaScript error value: its [name] and its [message]. *)
Record JsError := mkError { errorName : string; errorMessage : string }.

Definition TypeError (message : string) : JsError := mkError "TypeError" message.

(** The completion of a piece of code: a value, or a thrown error. *)
Inductive Completion (A : Type) : Type :=
| Normal (a : A)
| Throw (e : JsError).
Arguments Normal {A} a.
Arguments Throw {A} e.

Definition bindC {A B} (c : Completion A) (k : A -> Completion B) : Completion B :=
  match c with
  | Normal a => k a
  | Throw e => Throw e
  end.

Definition throwsNamed {A} (c : Completion A) (name : string) : Prop :=
  exists msg, c = Throw (mkError name msg).

Module JsObject.

(** The function-valued properties of [Object.prototype], by name. *)
Definition prototypeMethods : list string :=
  [ "__defineGetter__"; "__defineSetter__"; "hasOwnProperty";
    "__lookupGetter__"; "__lookupSetter__"; "isPrototypeOf";
    "propertyIsEnumerable"; "toString"; "valueOf"; "toLocaleString" ].

(** Every property name of [Object.prototype]. *)
Definition prototypeKeys : list string :=
  "constructor" :: "__proto__" :: prototypeMethods.

(** What [o[k]] evaluates to for an object [o] created by [{}] whose own
    properties hold values of type [V]. *)
Inductive OwnOrInherited (V : Type) : Type :=
| Own (v : V)                      (* an own property *)
| NativeFunction (name : string)   (* a built-in function of the prototype *)
| PrototypeObject                  (* [o.__proto__], i.e. Object.prototype *)
| Undefined.
Arguments Own {V} v.
Arguments NativeFunction {V} name.
Arguments PrototypeObject {V}.
Arguments Undefined {V}.

Definition get {V} (o : gmap string V) (k : string) : OwnOrInherited V :=
  match o !! k with
  | Some v => Own v
  | None =>
      if decide (k = "__proto__") then PrototypeObject
      else if decide (k = "constructor") then NativeFunction "Object"
      else if decide (k ∈ prototypeMethods) then NativeFunction k
      else Undefined
  end.

(** [o[k] = v] for a primitive [v] (a number or a string): the setter of
    [__proto__] ignores a primitive; any other name becomes, or updates, an
    own property. *)
Definition set {V} (o : gmap string V) (k : string) (v : V) : gmap string V :=
  if decide (k = "__proto__") then o else <[k := v]> o.

End JsObject.

(** ** The mapper: [mapFunction] *)

(** The values that [(x || 0) + 1] can produce: a number, or a string when
    [x] was not a number. *)
Inductive CountVal := CNum (n : Z) | CStr (s : string).

Global Instance CountVal_eq_dec : EqDecision CountVal.
Proof. solve_decision. Defined.

Record MapResult := mkMapResult { mapperId : Z; counts : gmap string CountVal }.

(** [(x || 0) + 1] where [x] is the result of reading [wordCount[word]]. *)
Definition orZeroPlusOne (x : JsObject.OwnOrInherited CountVal) : CountVal :=
  match x with
  | JsObject.Undefined => CNum 1
  | JsObject.Own (CNum n) => CNum (n + 1)
  | JsObject.Own (CStr s) => if truthy s then CStr (s +:+ "1") else CNum 1
  | JsObject.NativeFunction name =>
      CStr ("function " +:+ name +:+ "() { [native code] }" +:+ "1")
  | JsObject.PrototypeObject => CStr "[object Object]1"
  end.

(** The body of [words.forEach(word => ...)]. *)
Definition countWord (wordCount : gmap string CountVal) (word : string)
  : gmap string CountVal :=
  if truthy word
  then JsObject.set wordCount word (orZeroPlusOne (JsObject.get wordCount word))
  else wordCount.

Definition mapFunction (chunk : Chunk) : MapResult :=
  let words := split (toLowerCase (text chunk)) in
  let wordCount := foldl countWord ∅ words in
  {| mapperId := id chunk; counts := wordCount |}.

(** ** The shuffle: [shufflePhase] *)

Record Entry := mkEntry { entryMapperId : Z; entryCount : CountVal }.

Global Instance Entry_eq_dec : EqDecision Entry.
Proof. solve_decision. Defined.

(** The body of the inner [forEach(([word, count]) => ...)]:
    [if (!grouped[word]) grouped[word] = []; grouped[word].push(...)].
    An own property is an array; an inherited one is truthy and has no
    [push], so the call throws. *)
Definition pushEntry (mid : Z) (word : string) (count : CountVal)
    (grouped : gmap string (list Entry)) : Completion (gmap string (list Entry)) :=
  match JsObject.get grouped word with
  | JsObject.Own l => Normal (<[word := l ++ [mkEntry mid count]]> grouped)
  | JsObject.Undefined => Normal (<[word := [mkEntry mid count]]> grouped)
  | JsObject.NativeFunction _ | JsObject.PrototypeObject =>
      Throw (TypeError "grouped[word].push is not a function")
  end.

(** The body of the outer [mapOutputs.forEach(output => ...)], over
    [Object.entries(output.counts)].  The entries of one object have distinct
    words, so the order in which they are visited does not show in the
    result (see [absorbOutput_Normal]). *)
Definition absorbOutput (acc : Completion (gmap string (list Entry)))
    (output : MapResult) : Completion (gmap string (list Entry)) :=
  map_fold (fun word count acc => bindC acc (pushEntry (mapperId output) word count))
           acc (counts output).

Definition shufflePhase (mapOutputs : list MapResult)
  : Completion (gmap string (list Entry)) :=
  foldl absorbOutput (Normal ∅) mapOutputs.

(** ** The reducer: [reduceFunction] *)

Definition countToString (v : CountVal) : string :=
  match v with CNum n => ofNumber n | CStr s => s end.

(** [a + b] on numbers and strings; on numbers it is the sum of the source
    as long as the integers added and their sum stay within
    [Number.MAX_SAFE_INTEGER] in magnitude. *)
Definition plus (a b : CountVal) : CountVal :=
  match a, b with
  | CNum x, CNum y => CNum (x + y)
  | _, _ => CStr (countToString a +:+ countToString b)
  end.

Record ReduceResult :=
  mkReduceResult { word : string; count : CountVal; sources : list string }.

Definition reduceFunction (w : string) (values : list Entry) : ReduceResult :=
  let totalCount := foldl (fun sum val => plus sum (entryCount val)) (CNum 0) values in
  {| word := w;
     count := totalCount;
     sources := map (fun v => "Mapper-" +:+ ofNumber (entryMapperId v)) values |}.

(** ** The job: [runMapReduce] *)

(** The state the component holds when [runMapReduce] has finished;
    [failure] is the error caught by its [catch] clause, if any. *)
Record JobState := mkJobState {
  chunks : list Chunk;
  mapResults : list MapResult;
  reduceResults : list ReduceResult;
  finalCounts : gmap string CountVal;
  failure : option JsError
}.

(** [final[output.word] = output.count] for every reduce output. *)
Definition collect (reduceOutputs : list ReduceResult) : gmap string CountVal :=
  foldl (fun final output => JsObject.set final (word output) (count output))
        ∅ reduceOutputs.

(** The reduce outputs are listed in the order of [map_to_list]; the order of
    [Object.entries] is not modelled, and [collect] does not depend on it. *)
Definition runMapReduce (inputText : string) (numMappers : Z) : JobState :=
  let textChunks := splitTextIntoChunks inputText numMappers in
  let mapOutputs := map mapFunction textChunks in
  match shufflePhase mapOutputs with
  | Normal shuffled =>
      let reduceOutputs :=
        map (fun '(w, values) => reduceFunction w values) (map_to_list shuffled) in
      {| chunks := textChunks; mapResults := mapOutputs;
         reduceResults := reduceOutputs; finalCounts := collect reduceOutputs;
         failure := None |}
  | Throw e =>
      {| chunks := textChunks; mapResults := mapOutputs;
         reduceResults := []; finalCounts := ∅; failure := Some e |}
  end.

(** A call of [splitTextIntoChunks], as a completion.  The function has no
    [throw], and nothing it calls throws on a string and a number: the call
    completes normally with the returned list. *)
Definition callSplit (inputText : string) (numChunks : Z) : Completion (list Chunk) :=
  Normal (splitTextIntoChunks inputText numChunks).

(** The start button is disabled while a job runs and when the trimmed input
    is empty. *)
Definition startDisabled (isRunning : bool) (inputText : string) : bool :=
  isRunning || negb (truthy (trim inputText)).

Definition demoText : string :=
  "hello world hello distributed systems mapreduce world".

(** ** The vocabulary of the specification *)

(** The whitespace-tokenized word sequence of a text: the non-empty pieces
    between runs of white space, in order (what the mapper keeps of a text,
    before lower-casing). *)
Definition wordSequence (s : string) : list string := filter truthy (split s).

(** A text that is empty or made of white space only. *)
Definition blank (s : string) : Prop := trim s = "".

(** A string that does not start with white space. *)
Definition headClean (s : string) : bool :=
  match s with "" => true | String c _ => negb (isWhiteSpace c) end.

(** The chunk the loop builds at index [i]. *)
Definition piece (words : list string) (k i : nat) : Chunk :=
  {| id := Z.of_nat i; text := join (take k (drop (i * k) words)) |}.

(** The size of a chunk and the number of chunks, as the loop fixes them. *)
Definition chunkSizeOf (len : nat) (numChunks : Z) : nat :=
  Z.to_nat (ceilDiv (Z.of_nat len) numChunks).

Definition chunkCountOf (len : nat) (numChunks : Z) : nat :=
  Z.to_nat (ceilDiv (Z.of_nat len) (Z.of_nat (chunkSizeOf len numChunks))).

(** The number of times [w] occurs in a list of words. *)
Definition occurrences (w : string) (ws : list string) : nat :=
  length (filter (fun x => x = w) ws).

(** The lower-cased word sequence of a text: the words the job counts. *)
Definition countedWords (s : string) : list string :=
  map toLowerCase (wordSequence s).

(** What a word count object holds for [w] once the words [ws] were
    counted: nothing, or the number of occurrences. *)
Definition tally (ws : list string) (w : string) : option CountVal :=
  match occurrences w ws with
  | O => None
  | S c => Some (CNum (Z.of_nat (S c)))
  end.

(** An object without own property named like a property of
    [Object.prototype]. *)
Definition protoFree {V} (o : gmap string V) : Prop :=
  Forall (fun k => o !! k = None) JsObject.prototypeKeys.

Global Instance protoFree_dec {V} (o : gmap string V) : Decision (protoFree o).
Proof. unfold protoFree. apply _. Defined.

(** The error of [shufflePhase]. *)
Definition shuffleError : JsError := TypeError "grouped[word].push is not a function".

(** The contributions to the word [w] in a list of map results, in the order
    of the list. *)
Definition groupOf (mapOutputs : list MapResult) (w : string) : list Entry :=
  omap (fun o => mkEntry (mapperId o) <$> counts o !! w) mapOutputs.

(** The sum of the counts of a list of entries, as the reducer adds them. *)
Definition sumEntries (values : list Entry) : CountVal :=
  foldl (fun sum val => plus sum (entryCount val)) (CNum 0) values.

(** The sum of the values of an object of counts:
    [Object.values(o).reduce((a, b) => a + b, 0)]. *)
Definition sumValues (o : gmap string CountVal) : CountVal :=
  foldl plus (CNum 0) (snd <$> map_to_list o).

(** A group after one more map result was read: [new] is what the result
    holds for the word, if anything. *)
Definition extend (old : option (list Entry)) (new : option Entry)
  : option (list Entry) :=
  match new with
  | Some e => Some (default [] old ++ [e])
  | None => old
  end.

(** A group after the contributions [l] were pushed, in order. *)
Definition extendAll (old : option (list Entry)) (l : list Entry)
  : option (list Entry) :=
  match l with
  | [] => old
  | _ => Some (default [] old ++ l)
  end.

(** The number a count stands for; a string stands for none. *)
Definition numberOf (v : CountVal) : Z :=
  match v with CNum n => n | CStr _ => 0 end.

(** The total of the numbers held by an object of counts. *)
Definition total (o : gmap string CountVal) : Z :=
  map_fold (fun _ v acc => numberOf v + acc) 0 o.

(** Two optional groups that hold the same entries, in any order. *)
Definition sameEntries (a b : option (list Entry)) : Prop :=
  match a, b with
  | Some l, Some l' => l ≡ₚ l'
  | None, None => True
  | _, _ => False
  end.

(** A count that is a number. *)
Definition numeric (v : CountVal) : Prop :=
  match v with CNum _ => True | CStr _ => False end.

(** The label the reducer gives to a mapper. *)
Definition mapperLabel (i : Z) : string := "Mapper-" +:+ ofNumber i.

(** The panel "Final Word Counts" is rendered when
    [Object.keys(finalCounts).length > 0]. *)
Definition finalPanelShown (final : gmap string CountVal) : bool :=
  bool_decide (0 < size final)%nat.

(** [Number.MAX_SAFE_INTEGER], 2^53 - 1: up to it the sums of non-negative
    integers are exact in the source, whatever the order of the additions. *)
Definition maxSafeInteger : Z := 9007199254740991.

(** A count that is a non-negative integer. *)
Definition safeCount (v : CountVal) : bool :=
  match v with CNum n => 0 <=? n | CStr _ => false end.

(** The sum of the numbers of a list of entries. *)
Definition entriesTotal (values : list Entry) : Z :=
  foldr (fun e acc => numberOf (entryCount e) + acc) 0 values.

(** The sum of all the numbers of a list of map results. *)
Definition outputsTotal (mapOutputs : list MapResult) : Z :=
  foldr (fun o acc => total (counts o) + acc) 0 mapOutputs.

(** * Examples *)

Example split_demo :
  splitTextIntoChunks "hello world hello distributed systems mapreduce world" 3
  = [ mkChunk 0 "hello world hello"; mkChunk 1 "distributed systems mapreduce";
      mkChunk 2 "world" ].
Proof. vm_compute. reflexivity. Qed.

Example lowerChar_examples :
  toLowerCase "Hello, WORLD" = "hello, world"
  /\ lowerChar "192" = "224"%char /\ lowerChar "215" = "215"%char
  /\ lowerChar "222" = "254"%char /\ lowerChar "223" = "223"%char
  /\ isWhiteSpace "160" = true /\ isWhiteSpace "133" = false.
Proof. vm_compute. repeat split. Qed.

Example split_ws_examples :
  split "" = [""] /\ split " a" = [""; "a"] /\ split "a  b " = ["a"; "b"; ""]
  /\ trim "  a b  " = "a b" /\ ofNumber 12 = "12" /\ ofNumber 0 = "0".
Proof. vm_compute. repeat split. Qed.

(** * Properties of the string operations *)

Section StringFacts.

Lemma isWhiteSpace_lowerChar c : isWhiteSpace (lowerChar c) = isWhiteSpace c.
Proof. by destruct c as [[] [] [] [] [] [] [] []]. Qed.

Lemma truthy_toLowerCase s : truthy (toLowerCase s) = truthy s.
Proof. by destruct s. Qed.

Lemma splitFrom_nonempty b s : splitFrom b s <> [].
Proof.
  revert b; induction s as [|c r IH]; intros b; simpl; [done|].
  destruct (isWhiteSpace c); [destruct b; [apply IH | done] |].
  by destruct (splitFrom false r).
Qed.

Lemma splitFrom_toLowerCase b s :
  splitFrom b (toLowerCase s) = map toLowerCase (splitFrom b s).
Proof.
  revert b; induction s as [|c r IH]; intros b; simpl; [done|].
  rewrite isWhiteSpace_lowerChar.
  destruct (isWhiteSpace c).
  - destruct b; simpl; by rewrite IH.
  - rewrite IH. by destruct (splitFrom false r).
Qed.

Lemma splitFrom_spaceFree b s : Forall (fun w => spaceFree w = true) (splitFrom b s).
Proof.
  revert b; induction s as [|c r IH]; intros b; simpl.
  - by repeat constructor.
  - destruct (isWhiteSpace c) eqn:Hc.
    + destruct b; [apply IH | constructor; [done | apply IH]].
    + specialize (IH false). destruct (splitFrom false r) as [|w ws].
      * repeat constructor. simpl. by rewrite Hc.
      * inversion IH as [|? ? Hw Hws]; subst. constructor; [|done].
        simpl. by rewrite Hc, Hw.
Qed.

Lemma kept_empty (l : list string) : filter truthy ("" :: l) = filter truthy l.
Proof. apply filter_cons_False. intros []. Qed.

Lemma kept_cons w (l : list string) :
  truthy w = true -> filter truthy (w :: l) = w :: filter truthy l.
Proof. intros H. apply filter_cons_True. by rewrite H. Qed.

Lemma kept_skip w (l : list string) :
  truthy w = false -> filter truthy (w :: l) = filter truthy l.
Proof. intros H. apply filter_cons_False. rewrite H. intros []. Qed.

Lemma kept_congr w (l l' : list string) :
  filter truthy l = filter truthy l' -> filter truthy (w :: l) = filter truthy (w :: l').
Proof.
  intros E. destruct (truthy w) eqn:Hw.
  - by rewrite !kept_cons, E.
  - by rewrite !kept_skip.
Qed.

(** The flag only decides whether a leading separator yields an empty
    first piece. *)
Lemma splitFrom_flag s :
  filter truthy (splitFrom true s) = filter truthy (splitFrom false s).
Proof.
  destruct s as [|c r]; simpl; [done|].
  destruct (isWhiteSpace c); [by rewrite kept_empty | done].
Qed.

Lemma wordSequence_trimStart s : wordSequence (trimStart s) = wordSequence s.
Proof.
  unfold wordSequence, split. induction s as [|c r IH]; [done|].
  simpl. destruct (isWhiteSpace c) eqn:Hc; [|by simpl; rewrite Hc].
  rewrite IH, kept_empty. by rewrite splitFrom_flag.
Qed.

Lemma splitFrom_cons b c r :
  splitFrom b (String c r) =
  if isWhiteSpace c
  then (if b then splitFrom true r else "" :: splitFrom true r)
  else match splitFrom false r with
       | w :: ws => String c w :: ws
       | [] => [String c ""]
       end.
Proof. done. Qed.

Lemma trimEnd_cons c r :
  trimEnd (String c r) =
  match trimEnd r with
  | "" => if isWhiteSpace c then "" else String c ""
  | String c' r' => String c (String c' r')
  end.
Proof. done. Qed.

(** Trimming the end keeps the first piece and the non-empty pieces. *)
Lemma trimEnd_splitFrom s b :
  exists h t t', splitFrom b s = h :: t /\ splitFrom b (trimEnd s) = h :: t'
                 /\ filter truthy t = filter truthy t'.
Proof.
  revert b; induction s as [|c r IH]; intros b.
  - by exists "", [], [].
  - rewrite trimEnd_cons, splitFrom_cons.
    destruct (isWhiteSpace c) eqn:Hc.
    + destruct (IH true) as (h & t & t' & E1 & E2 & E3). rewrite E1.
      destruct (trimEnd r) as [|c' r'] eqn:Er.
      * simpl in E2. injection E2 as <- <-. simpl in E3.
        destruct b; simpl.
        -- by exists "", t, [].
        -- exists "", ("" :: t), []. by rewrite kept_empty.
      * rewrite splitFrom_cons, Hc, E2. destruct b.
        -- by exists h, t, t'.
        -- exists "", (h :: t), (h :: t'). split_and!; [done..|].
           by apply kept_congr.
    + destruct (IH false) as (h & t & t' & E1 & E2 & E3). rewrite E1.
      destruct (trimEnd r) as [|c' r'] eqn:Er.
      * simpl in E2. injection E2 as <- <-.
        rewrite splitFrom_cons, Hc. simpl. by exists (String c ""), t, [].
      * rewrite splitFrom_cons, Hc, E2. by exists (String c h), t, t'.
Qed.

Lemma wordSequence_trimEnd s : wordSequence (trimEnd s) = wordSequence s.
Proof.
  unfold wordSequence, split.
  destruct (trimEnd_splitFrom s false) as (h & t & t' & -> & -> & E).
  symmetry. by apply kept_congr.
Qed.

Lemma wordSequence_trim s : wordSequence (trim s) = wordSequence s.
Proof. unfold trim. by rewrite wordSequence_trimEnd, wordSequence_trimStart. Qed.

Lemma headClean_trimStart s : headClean (trimStart s) = true.
Proof.
  induction s as [|c r IH]; [done|]. simpl.
  destruct (isWhiteSpace c) eqn:Hc; [done|]. simpl. by rewrite Hc.
Qed.

Lemma headClean_trimEnd s : headClean s = true -> headClean (trimEnd s) = true.
Proof.
  destruct s as [|c r]; [done|]. rewrite trimEnd_cons. simpl. intros Hc.
  destruct (trimEnd r); [|done].
  destruct (isWhiteSpace c) eqn:E; [done|]. simpl. by rewrite E.
Qed.

Lemma trimEnd_idem s : trimEnd (trimEnd s) = trimEnd s.
Proof.
  induction s as [|c r IH]; [done|]. rewrite trimEnd_cons.
  destruct (trimEnd r) as [|c' r'] eqn:Er.
  - destruct (isWhiteSpace c) eqn:Hc; [done|]. simpl. by rewrite Hc.
  - rewrite trimEnd_cons, IH. done.
Qed.

(** In a string without trailing white space only the first piece can be
    empty, and only when the string starts with white space. *)
Lemma trimEnd_fixed_splitFrom s b :
  trimEnd s = s -> s <> "" ->
  exists h t, splitFrom b s = h :: t /\ Forall (fun w => truthy w = true) t
              /\ (b = true \/ headClean s = true -> truthy h = true).
Proof.
  revert b; induction s as [|c r IH]; intros b Hfix Hne; [done|].
  rewrite trimEnd_cons in Hfix. rewrite splitFrom_cons.
  destruct (trimEnd r) as [|c' r'] eqn:Er.
  - destruct (isWhiteSpace c) eqn:Hc; [done|].
    injection Hfix as <-. simpl. by exists (String c ""), [].
  - injection Hfix as <-.
    destruct (isWhiteSpace c) eqn:Hc.
    + destruct (IH true) as (h & t & E & Ht & Hh); [done..|].
      rewrite E. destruct b.
      * exists h, t. split_and!; [done..|]. intros _. apply Hh. by left.
      * exists "", (h :: t). split_and!; [done| |].
        -- constructor; [apply Hh; by left | done].
        -- simpl. rewrite Hc. by intros [|].
    + destruct (IH false) as (h & t & E & Ht & Hh); [done..|].
      rewrite E. by exists (String c h), t.
Qed.

Lemma filter_truthy_all (l : list string) :
  Forall (fun w => truthy w = true) l -> filter truthy l = l.
Proof.
  induction 1 as [|w l Hw _ IH]; [done|]. by rewrite kept_cons, IH.
Qed.

(** The words the master cuts, [text.trim().split(/\s+/)], are the word
    sequence of the text, unless the text is blank. *)
Lemma split_trim_words s : ~ blank s -> split (trim s) = wordSequence s.
Proof.
  intros Hnb. rewrite <- wordSequence_trim. unfold wordSequence, split.
  symmetry. apply filter_truthy_all.
  destruct (trimEnd_fixed_splitFrom (trim s) false) as (h & t & -> & Ht & Hh).
  - apply trimEnd_idem.
  - exact Hnb.
  - constructor; [|done]. apply Hh. right.
    apply headClean_trimEnd, headClean_trimStart.
Qed.

Lemma split_trim_blank s : blank s -> split (trim s) = [""] /\ wordSequence s = [].
Proof.
  unfold blank. intros Hb. rewrite <- wordSequence_trim, Hb. done.
Qed.

Lemma blank_dec s : {blank s} + {~ blank s}.
Proof. unfold blank. apply (decide (trim s = "")). Qed.

Lemma wordSequence_nil_blank s : wordSequence s = [] <-> blank s.
Proof.
  split; [|by intros []%split_trim_blank].
  intros Hw. destruct (blank_dec s) as [|Hnb]; [done|].
  pose proof (split_trim_words s Hnb) as E. rewrite Hw in E.
  by apply splitFrom_nonempty in E.
Qed.

Lemma wordSequence_spaceFree s : Forall (fun w => spaceFree w = true) (wordSequence s).
Proof.
  unfold wordSequence. apply Forall_forall. intros w [_ Hw]%list_elem_of_filter.
  revert w Hw. apply Forall_forall, splitFrom_spaceFree.
Qed.

Lemma wordSequence_truthy s : Forall (fun w => truthy w = true) (wordSequence s).
Proof.
  unfold wordSequence. apply Forall_forall. intros w [Hw _]%list_elem_of_filter.
  by destruct (truthy w).
Qed.

Lemma append_cons c w s : String c w +:+ s = String c (w +:+ s).
Proof. done. Qed.

Lemma splitFrom_word b w : spaceFree w = true -> splitFrom b w = [w].
Proof.
  induction w as [|c w IH] in b |- *; [done|]. simpl.
  intros [Hc Hw]%andb_prop. apply negb_true_iff in Hc.
  by rewrite Hc, IH.
Qed.

Lemma splitFrom_word_sep b w s :
  spaceFree w = true -> b = false \/ truthy w = true ->
  splitFrom b (w +:+ String " " s) = w :: splitFrom true s.
Proof.
  induction w as [|c w IH] in b |- *; intros Hw Hb.
  - by destruct Hb as [->|].
  - simpl in Hw. apply andb_prop in Hw as [Hc Hw]. apply negb_true_iff in Hc.
    rewrite append_cons, splitFrom_cons, Hc, (IH false); auto.
Qed.

Lemma join_cons2 w w' rest : join (w :: w' :: rest) = w +:+ String " " (join (w' :: rest)).
Proof. done. Qed.

(** Splitting what [join] built gives the words back. *)
Lemma splitFrom_join b ws :
  ws <> [] ->
  Forall (fun w => spaceFree w = true) ws -> Forall (fun w => truthy w = true) ws ->
  splitFrom b (join ws) = ws.
Proof.
  intros Hne Hs Ht. revert b.
  induction ws as [|w [|w' rest] IH]; intros b; [done| |].
  - apply splitFrom_word. by inversion Hs.
  - inversion Hs; inversion Ht; subst.
    rewrite join_cons2, splitFrom_word_sep by auto.
    f_equal. by apply IH.
Qed.

Lemma wordSequence_join ws :
  Forall (fun w => spaceFree w = true) ws -> Forall (fun w => truthy w = true) ws ->
  wordSequence (join ws) = ws.
Proof.
  intros Hs Ht. destruct ws as [|w rest]; [done|].
  unfold wordSequence, split. rewrite splitFrom_join by done.
  by apply filter_truthy_all.
Qed.

(** A separator between two texts separates their words. *)
Lemma splitFrom_sep a b :
  (exists h t t', splitFrom false a = h :: t
      /\ splitFrom false (a +:+ String " " b) = h :: t'
      /\ filter truthy t' = filter truthy t ++ filter truthy (splitFrom true b))
  /\ filter truthy (splitFrom true (a +:+ String " " b))
     = filter truthy (splitFrom true a) ++ filter truthy (splitFrom true b).
Proof.
  induction a as [|c a [(h & t & t' & E1 & E2 & E3) IH2]].
  - split; [|done]. by exists "", [], (splitFrom true b).
  - rewrite append_cons, !splitFrom_cons.
    destruct (isWhiteSpace c).
    + split; [|done]. by exists "", (splitFrom true a), (splitFrom true (a +:+ String " " b)).
    + rewrite E1, E2. split.
      * by exists (String c h), t, t'.
      * rewrite !kept_cons by done. by rewrite E3.
Qed.

Lemma wordSequence_sep a b :
  wordSequence (a +:+ String " " b) = wordSequence a ++ wordSequence b.
Proof.
  unfold wordSequence, split.
  destruct (splitFrom_sep a b) as [(h & t & t' & -> & -> & E) _].
  rewrite <- (splitFrom_flag b).
  destruct (truthy h) eqn:Hh.
  - rewrite !kept_cons by done. by rewrite E.
  - by rewrite !kept_skip.
Qed.

(** The words of texts joined by single spaces are the words of the texts. *)
Lemma wordSequence_join_texts (ts : list string) :
  wordSequence (join ts) = flat_map wordSequence ts.
Proof.
  induction ts as [|a [|b ts] IH]; [done| |].
  - simpl. by rewrite app_nil_r.
  - rewrite join_cons2, wordSequence_sep, IH. done.
Qed.

End StringFacts.

(** * Properties of [splitTextIntoChunks] *)

Section ChunkFacts.

Lemma ceilDiv_bounds a b :
  0 < b -> b * (ceilDiv a b - 1) < a <= b * ceilDiv a b.
Proof.
  intros Hb. unfold ceilDiv.
  pose proof (Z.div_mod (- a) b ltac:(lia)).
  pose proof (Z.mod_pos_bound (- a) b Hb). nia.
Qed.

Lemma take_min_length {A} (l : list A) a : take (a `min` length l) l = take a l.
Proof.
  destruct (Nat.min_spec a (length l)) as [[_ ->]|[? ->]]; [done|].
  by rewrite !take_ge by lia.
Qed.

(** A guarded loop body that fires exactly below [m] lists the first [m]
    indices. *)
Lemma flat_map_prefix {A} (p : nat -> bool) (g : nat -> A) (m N : nat) :
  (forall i, p i = true <-> (i < m)%nat) ->
  flat_map (fun i => if p i then [g i] else []) (seq 0 N) = map g (seq 0 (m `min` N)).
Proof.
  intros Hp. induction N as [|N IH]; [by rewrite Nat.min_0_r|].
  rewrite seq_S, flat_map_app, IH. simpl. rewrite app_nil_r.
  destruct (p N) eqn:HN.
  - apply Hp in HN. rewrite (Nat.min_r m (S N)), (Nat.min_r m N) by lia.
    by rewrite seq_S, map_app.
  - assert (m <= N)%nat.
    { destruct (decide (N < m)%nat) as [Hlt|]; [|lia].
      apply Hp in Hlt. congruence. }
    rewrite !Nat.min_l by lia. by rewrite app_nil_r.
Qed.

(** The pieces of length [k] of a list, put back together. *)
Lemma pieces_concat {A} (l : list A) (k m : nat) :
  flat_map (fun i => take k (drop (i * k) l)) (seq 0 m) = take (m * k) l.
Proof.
  induction m as [|m IH]; [done|].
  rewrite seq_S, flat_map_app, IH. simpl. rewrite app_nil_r.
  rewrite take_take_drop. f_equal. lia.
Qed.

Lemma chunk_numbers len n :
  (1 <= len)%nat -> 1 <= n ->
  let k := chunkSizeOf len n in
  let m := chunkCountOf len n in
  (1 <= k)%nat /\ (1 <= m)%nat /\ Z.of_nat m <= n
  /\ ((m - 1) * k < len)%nat /\ (len <= m * k)%nat
  /\ Z.of_nat k = ceilDiv (Z.of_nat len) n.
Proof.
  intros Hlen Hn k m. unfold chunkCountOf in m. fold k in m.
  pose proof (ceilDiv_bounds (Z.of_nat len) n ltac:(lia)) as Hk.
  assert (Z.of_nat k = ceilDiv (Z.of_nat len) n) as Ek.
  { unfold k, chunkSizeOf. rewrite Z2Nat.id; [done|]. nia. }
  assert (1 <= k)%nat as Hk1 by nia.
  pose proof (ceilDiv_bounds (Z.of_nat len) (Z.of_nat k) ltac:(lia)) as Hm.
  assert (Z.of_nat m = ceilDiv (Z.of_nat len) (Z.of_nat k)) as Em.
  { unfold m. rewrite Z2Nat.id; [done|]. nia. }
  rewrite <- Ek in Hk. rewrite <- Em in Hm.
  split_and!; [done | nia | nia | nia | nia | done].
Qed.

Lemma flat_map_fmap {A B C} (f : B -> list C) (g : A -> B) (l : list A) :
  flat_map f (g <$> l) = flat_map (fun a => f (g a)) l.
Proof. induction l as [|a l IH]; [done|]. simpl. f_equal. apply IH. Qed.

Lemma slice_piece (words : list string) (i k : nat) :
  (i * k < length words)%nat ->
  slice (Z.of_nat i * Z.of_nat k)
        (Z.min (Z.of_nat i * Z.of_nat k + Z.of_nat k) (Z.of_nat (length words))) words
  = take k (drop (i * k) words).
Proof.
  intros Hlt. unfold slice.
  replace (Z.to_nat (Z.of_nat i * Z.of_nat k)) with (i * k)%nat by lia.
  rewrite <- (take_min_length (drop _ _) k), length_drop. f_equal. lia.
Qed.

(** The chunks are the first [chunkCountOf] pieces of [chunkSizeOf] words. *)
Lemma splitTextIntoChunks_shape inputText n :
  1 <= n ->
  let words := split (trim inputText) in
  splitTextIntoChunks inputText n
  = map (piece words (chunkSizeOf (length words) n))
        (seq 0 (chunkCountOf (length words) n)).
Proof.
  intros Hn words.
  assert (1 <= length words)%nat as Hlen.
  { pose proof (splitFrom_nonempty false (trim inputText)).
    unfold words, split. destruct (splitFrom _ _); simpl; [done | lia]. }
  destruct (chunk_numbers (length words) n Hlen Hn)
    as (Hk & Hm & Hmn & Hlo & Hhi & Ek).
  set (k := chunkSizeOf (length words) n) in *.
  set (m := chunkCountOf (length words) n) in *.
  unfold splitTextIntoChunks. fold words. rewrite <- Ek.
  unfold seqZ. rewrite flat_map_fmap.
  rewrite <- (Nat.min_l m (Z.to_nat n)) by lia.
  rewrite <- (flat_map_prefix
                (fun i => Z.of_nat i * Z.of_nat k <? Z.of_nat (length words))).
  - apply flat_map_ext. intros i. rewrite Z.add_0_r.
    destruct (Z.ltb_spec (Z.of_nat i * Z.of_nat k) (Z.of_nat (length words))); [|done].
    unfold piece. by rewrite slice_piece by lia.
  - intros i. rewrite Z.ltb_lt. nia.
Qed.

Lemma piece_id words k m : map id (map (piece words k) (seq 0 m)) = seqZ 0 (Z.of_nat m).
Proof.
  unfold seqZ. rewrite Nat2Z.id, map_map. apply map_ext. intros i. simpl. lia.
Qed.

Lemma splitTextIntoChunks_blank inputText n :
  blank inputText -> 1 <= n ->
  splitTextIntoChunks inputText n = [ {| id := 0; text := "" |} ].
Proof.
  intros Hb Hn. rewrite splitTextIntoChunks_shape by done.
  apply split_trim_blank in Hb as [-> _]. simpl length.
  destruct (chunk_numbers 1 n ltac:(lia) Hn) as (Hk & Hm & _ & Hlo & _ & Ek).
  pose proof (ceilDiv_bounds 1 n ltac:(lia)) as Hb.
  change (Z.of_nat 1) with 1 in Ek. rewrite <- Ek in Hb.
  assert (chunkSizeOf 1 n = 1%nat) as -> by nia.
  assert (chunkCountOf 1 n = 1%nat) as -> by nia.
  done.
Qed.

Lemma splitTextIntoChunks_no_mappers inputText n :
  n <= 0 -> splitTextIntoChunks inputText n = [].
Proof. intros Hn. unfold splitTextIntoChunks. by rewrite seqZ_nil. Qed.

Lemma piece_words words k i :
  Forall (fun w => spaceFree w = true) words ->
  Forall (fun w => truthy w = true) words ->
  wordSequence (text (piece words k i)) = take k (drop (i * k) words).
Proof.
  intros Hs Ht. simpl. apply wordSequence_join; by apply Forall_take, Forall_drop.
Qed.

(** For a text that is not blank, chunk [i] holds the words
    [i * k .. i * k + k - 1] of the text, where [k] is the chunk size. *)
Lemma splitTextIntoChunks_words inputText n :
  ~ blank inputText -> 1 <= n ->
  let words := wordSequence inputText in
  let k := chunkSizeOf (length words) n in
  let m := chunkCountOf (length words) n in
  splitTextIntoChunks inputText n = map (piece words k) (seq 0 m)
  /\ map (fun c => wordSequence (text c)) (splitTextIntoChunks inputText n)
     = map (fun i => take k (drop (i * k) words)) (seq 0 m).
Proof.
  intros Hnb Hn words k m.
  pose proof (splitTextIntoChunks_shape inputText n Hn) as E. simpl in E.
  rewrite split_trim_words in E by done. fold words k m in E.
  split; [done|]. rewrite E, map_map. apply map_ext. intros i.
  apply piece_words; [apply wordSequence_spaceFree | apply wordSequence_truthy].
Qed.

(** The chunks, read one after the other, hold the words of the text. *)
Lemma splitTextIntoChunks_concat inputText n :
  1 <= n ->
  flat_map (fun c => wordSequence (text c)) (splitTextIntoChunks inputText n)
  = wordSequence inputText.
Proof.
  intros Hn. destruct (blank_dec inputText) as [Hb|Hnb].
  - rewrite splitTextIntoChunks_blank by done.
    by apply split_trim_blank in Hb as [_ ->].
  - destruct (splitTextIntoChunks_words inputText n Hnb Hn) as [_ E].
    rewrite flat_map_concat_map, E, <- flat_map_concat_map, pieces_concat.
    apply take_ge.
    assert (1 <= length (wordSequence inputText))%nat as Hlen.
    { destruct (wordSequence inputText) eqn:Ew; simpl; [|lia].
      by apply wordSequence_nil_blank in Ew. }
    destruct (chunk_numbers _ n Hlen Hn) as (_ & _ & _ & _ & Hhi & _). lia.
Qed.

(** The chunk ids count up from 0. *)
Lemma splitTextIntoChunks_ids inputText n :
  1 <= n ->
  map id (splitTextIntoChunks inputText n)
  = seqZ 0 (Z.of_nat (length (splitTextIntoChunks inputText n))).
Proof.
  intros Hn. rewrite splitTextIntoChunks_shape by done.
  by rewrite piece_id, !length_map, length_seq.
Qed.

End ChunkFacts.

(** * Properties of objects read as dictionaries *)

Section ObjectFacts.

Context {V : Type}.
Implicit Types (o : gmap string V) (k : string).

Lemma proto_in_prototypeKeys : "__proto__" ∈ JsObject.prototypeKeys.
Proof. unfold JsObject.prototypeKeys. rewrite !elem_of_cons. auto. Qed.

Lemma get_own o k v : o !! k = Some v -> JsObject.get o k = JsObject.Own v.
Proof. unfold JsObject.get. by intros ->. Qed.

(** A name that [Object.prototype] does not define is read as an own
    property or as [undefined]. *)
Lemma get_safe o k :
  k ∉ JsObject.prototypeKeys ->
  JsObject.get o k
  = match o !! k with Some v => JsObject.Own v | None => JsObject.Undefined end.
Proof.
  intros Hk. unfold JsObject.get. destruct (o !! k); [done|].
  unfold JsObject.prototypeKeys in Hk.
  apply not_elem_of_cons in Hk as [Hc Hk]. apply not_elem_of_cons in Hk as [Hp Hm].
  by rewrite !decide_False.
Qed.

(** A name of [Object.prototype] that is not an own property is read from the
    prototype: a function, or the prototype itself. *)
Lemma get_inherited o k :
  k ∈ JsObject.prototypeKeys -> o !! k = None ->
  JsObject.get o k = JsObject.PrototypeObject
  \/ exists name, JsObject.get o k = JsObject.NativeFunction name.
Proof.
  intros Hk Ho. unfold JsObject.get. rewrite Ho.
  unfold JsObject.prototypeKeys in Hk. rewrite !elem_of_cons in Hk.
  destruct (decide (k = "__proto__")); [by left|].
  destruct (decide (k = "constructor")); [right; by eexists|].
  destruct (decide (k ∈ JsObject.prototypeMethods)); [right; by eexists|].
  tauto.
Qed.

Lemma set_safe o k v : k <> "__proto__" -> JsObject.set o k v = <[k := v]> o.
Proof. intros Hk. unfold JsObject.set. by case_decide. Qed.

Lemma set_proto o v : JsObject.set o "__proto__" v = o.
Proof. done. Qed.

Lemma protoFree_lookup o k : protoFree o -> k ∈ JsObject.prototypeKeys -> o !! k = None.
Proof. unfold protoFree. rewrite Forall_forall. auto. Qed.

Lemma protoFree_empty : protoFree (∅ : gmap string V).
Proof. apply Forall_forall. intros k _. apply lookup_empty. Qed.

Lemma protoFree_insert o k v :
  protoFree o -> k ∉ JsObject.prototypeKeys -> protoFree (<[k := v]> o).
Proof.
  unfold protoFree. rewrite !Forall_forall. intros Ho Hk x Hx.
  rewrite lookup_insert_ne; [auto | congruence].
Qed.

Lemma protoFree_insert_inv o k v :
  protoFree (<[k := v]> o) -> o !! k = None -> protoFree o /\ k ∉ JsObject.prototypeKeys.
Proof.
  unfold protoFree. rewrite !Forall_forall. intros Ho Hk. split.
  - intros x Hx. destruct (decide (x = k)) as [->|Hne]; [done|].
    rewrite <- (Ho x Hx). by rewrite lookup_insert_ne.
  - intros Hin. specialize (Ho k Hin). by rewrite lookup_insert_eq in Ho.
Qed.

End ObjectFacts.

(** * Properties of [mapFunction] *)

Section MapFacts.

Implicit Types (m : gmap string CountVal) (ws : list string) (w : string).

Lemma lowerChar_idem c : lowerChar (lowerChar c) = lowerChar c.
Proof. by destruct c as [[] [] [] [] [] [] [] []]. Qed.

Lemma toLowerCase_idem s : toLowerCase (toLowerCase s) = toLowerCase s.
Proof. induction s as [|c r IH]; [done|]. simpl. by rewrite lowerChar_idem, IH. Qed.

Lemma occurrences_app w ws ws' :
  occurrences w (ws ++ ws') = (occurrences w ws + occurrences w ws')%nat.
Proof. unfold occurrences. by rewrite filter_app, length_app. Qed.

Lemma occurrences_same w : occurrences w [w] = 1%nat.
Proof. unfold occurrences. by rewrite filter_cons_True. Qed.

Lemma occurrences_other w x : x <> w -> occurrences w [x] = 0%nat.
Proof. intros H. unfold occurrences. by rewrite filter_cons_False. Qed.

Lemma occurrences_zero w ws : occurrences w ws = 0%nat <-> w ∉ ws.
Proof.
  unfold occurrences. rewrite length_zero_iff_nil. split.
  - intros E Hin. assert (w ∈ filter (fun x => x = w) ws) as H
      by (by apply list_elem_of_filter).
    rewrite E in H. by apply not_elem_of_nil in H.
  - intros Hnin. destruct (filter _ ws) as [|x l] eqn:E; [done|].
    assert (x ∈ filter (fun x => x = w) ws) as [-> Hx]%list_elem_of_filter
      by (rewrite E; left).
    done.
Qed.

Lemma countedWords_truthy s : Forall (fun w => truthy w = true) (countedWords s).
Proof.
  unfold countedWords. apply Forall_fmap. eapply Forall_impl; [apply wordSequence_truthy|].
  intros w Hw. simpl. by rewrite truthy_toLowerCase.
Qed.

Lemma countedWords_lower s : Forall (fun w => toLowerCase w = w) (countedWords s).
Proof.
  unfold countedWords. apply Forall_fmap, Forall_forall. intros w _. simpl.
  apply toLowerCase_idem.
Qed.

Lemma foldl_countWord_filter m ws :
  foldl countWord m ws = foldl countWord m (filter truthy ws).
Proof.
  revert m. induction ws as [|x ws IH]; intros m; [done|].
  destruct (truthy x) eqn:Hx.
  - rewrite kept_cons by done. simpl. apply IH.
  - rewrite kept_skip by done. simpl.
    unfold countWord at 2. rewrite Hx. apply IH.
Qed.

Lemma filter_truthy_toLowerCase ws :
  filter truthy (map toLowerCase ws) = map toLowerCase (filter truthy ws).
Proof.
  induction ws as [|x ws IH]; [done|]. rewrite map_cons.
  destruct (truthy x) eqn:Hx.
  - rewrite !kept_cons by (by rewrite ?truthy_toLowerCase). by rewrite map_cons, IH.
  - by rewrite !kept_skip by (by rewrite ?truthy_toLowerCase).
Qed.

(** The mapper counts the lower-cased words of its chunk. *)
Lemma mapFunction_counts chunk :
  counts (mapFunction chunk) = foldl countWord ∅ (countedWords (text chunk)).
Proof.
  unfold mapFunction, countedWords, wordSequence, split. simpl.
  by rewrite splitFrom_toLowerCase, foldl_countWord_filter, filter_truthy_toLowerCase.
Qed.

(** Only counted words become keys. *)
Lemma foldl_countWord_keys ws k v :
  foldl countWord ∅ ws !! k = Some v -> k ∈ ws.
Proof.
  revert k v. induction ws as [|x ws IH] using rev_ind; intros k v; [done|].
  rewrite foldl_app. simpl. unfold countWord at 1.
  destruct (truthy x); [|intros ?%IH; set_solver].
  unfold JsObject.set. case_decide; [intros ?%IH; set_solver|].
  destruct (decide (k = x)) as [->|Hne]; [set_solver|].
  rewrite lookup_insert_ne by done. intros ?%IH. set_solver.
Qed.

(** A word that is no name of [Object.prototype] is counted right, whatever
    the other words are. *)
Lemma foldl_countWord_lookup ws w :
  Forall (fun x => truthy x = true) ws -> w ∉ JsObject.prototypeKeys ->
  foldl countWord ∅ ws !! w = tally ws w.
Proof.
  intros Hws Hw. induction ws as [|x ws IH] using rev_ind; [done|].
  apply Forall_app in Hws as [Hws Hx]. apply Forall_inv in Hx. simpl in Hx.
  specialize (IH Hws). rewrite foldl_app. simpl. unfold countWord at 1. rewrite Hx.
  unfold tally in *. rewrite occurrences_app.
  destruct (decide (x = w)) as [->|Hne].
  - rewrite occurrences_same, get_safe, set_safe, lookup_insert_eq, IH; [|by intros ->; apply Hw, proto_in_prototypeKeys|done].
    destruct (occurrences w ws) as [|c]; simpl; [done|].
    do 2 f_equal. lia.
  - rewrite occurrences_other, Nat.add_0_r by done.
    unfold JsObject.set. case_decide; [done|]. by rewrite lookup_insert_ne.
Qed.

Lemma tally_Some ws w v :
  tally ws w = Some v -> exists c, v = CNum c /\ 1 <= c /\ c = Z.of_nat (occurrences w ws).
Proof.
  unfold tally. destruct (occurrences w ws) as [|c]; [done|].
  intros [= <-]. eexists. split_and!; [done | lia | done].
Qed.

(** Every key of a map result is a non-empty lower-cased word of the chunk;
    its count is its number of occurrences, unless it is a name of
    [Object.prototype]. *)
Lemma mapFunction_keys chunk k v :
  counts (mapFunction chunk) !! k = Some v ->
  truthy k = true /\ toLowerCase k = k /\ k ∈ countedWords (text chunk)
  /\ (k ∉ JsObject.prototypeKeys ->
      exists c, v = CNum c /\ 1 <= c
           /\ c = Z.of_nat (occurrences k (countedWords (text chunk)))).
Proof.
  rewrite mapFunction_counts. intros Hk.
  pose proof (foldl_countWord_keys _ _ _ Hk) as Hin.
  pose proof (countedWords_truthy (text chunk)) as Ht.
  pose proof (countedWords_lower (text chunk)) as Hl.
  rewrite Forall_forall in Ht, Hl.
  split_and!; [auto..|].
  intros Hsafe. rewrite foldl_countWord_lookup in Hk; [|apply countedWords_truthy|done].
  by apply tally_Some.
Qed.

Lemma mapFunction_protoFree chunk :
  Forall (fun w => w ∉ JsObject.prototypeKeys) (countedWords (text chunk)) ->
  protoFree (counts (mapFunction chunk)).
Proof.
  intros Hsafe. apply Forall_forall. intros k Hk.
  destruct (counts (mapFunction chunk) !! k) as [v|] eqn:E; [|done].
  apply mapFunction_keys in E as (_ & _ & Hin & _).
  rewrite Forall_forall in Hsafe. by apply Hsafe in Hin.
Qed.

Lemma mapFunction_lookup chunk w :
  w ∉ JsObject.prototypeKeys ->
  counts (mapFunction chunk) !! w = tally (countedWords (text chunk)) w.
Proof.
  intros Hw. rewrite mapFunction_counts.
  apply foldl_countWord_lookup; [apply countedWords_truthy | done].
Qed.

End MapFacts.

(** * Properties of [shufflePhase] *)

Section ShuffleFacts.

Implicit Types (g : gmap string (list Entry)) (o : MapResult).

Lemma pushEntry_safe mid w c g :
  w ∉ JsObject.prototypeKeys ->
  pushEntry mid w c g = Normal (<[w := default [] (g !! w) ++ [mkEntry mid c]]> g).
Proof.
  intros Hw. unfold pushEntry. rewrite get_safe by done. by destruct (g !! w).
Qed.

(** Pushing under a name of [Object.prototype] throws. *)
Lemma pushEntry_inherited mid w c g :
  w ∈ JsObject.prototypeKeys -> g !! w = None ->
  pushEntry mid w c g = Throw shuffleError.
Proof.
  intros Hw Hg. unfold pushEntry.
  by destruct (get_inherited g w Hw Hg) as [->|[name ->]].
Qed.

Lemma absorbOutput_Throw e o : absorbOutput (Throw e) o = Throw e.
Proof.
  unfold absorbOutput.
  apply (map_fold_weak_ind (fun r _ => r = Throw e)); [done|].
  by intros i x m r _ ->.
Qed.

Lemma extend_None old : extend old None = old.
Proof. done. Qed.

(** One map result is absorbed entry by entry, unless one of its words is a
    name of [Object.prototype]. *)
Lemma absorbOutput_Normal g o :
  protoFree g ->
  if decide (protoFree (counts o))
  then exists g', absorbOutput (Normal g) o = Normal g' /\ protoFree g'
         /\ forall w, g' !! w = extend (g !! w) (mkEntry (mapperId o) <$> counts o !! w)
  else absorbOutput (Normal g) o = Throw shuffleError.
Proof.
  intros Hg. unfold absorbOutput.
  set (P := fun (r : Completion (gmap string (list Entry))) (m : gmap string CountVal) =>
    if decide (protoFree m)
    then exists g', r = Normal g' /\ protoFree g'
           /\ forall w, g' !! w = extend (g !! w) (mkEntry (mapperId o) <$> m !! w)
    else r = Throw shuffleError).
  enough (forall m, P (map_fold (fun word count acc =>
            bindC acc (pushEntry (mapperId o) word count)) (Normal g) m) m) as H
    by apply H.
  apply map_fold_weak_ind; unfold P.
  - rewrite decide_True by apply protoFree_empty.
    exists g. split_and!; [done..|]. intros w. by rewrite lookup_empty.
  - intros i x m r Hi IH.
    destruct (decide (protoFree (<[i:=x]> m))) as [Hins|Hins].
    + apply protoFree_insert_inv in Hins as [Hm Hk]; [|done].
      rewrite decide_True in IH by done. destruct IH as (g' & -> & Hg' & Hl).
      simpl. rewrite pushEntry_safe by done. eexists. split_and!; [done| |].
      * by apply protoFree_insert.
      * intros w. destruct (decide (w = i)) as [->|Hne].
        -- rewrite !lookup_insert_eq, Hl, Hi. done.
        -- rewrite !lookup_insert_ne by done. apply Hl.
    + destruct (decide (protoFree m)) as [Hm|Hm]; [|by rewrite IH].
      destruct IH as (g' & -> & Hg' & Hl). simpl.
      assert (i ∈ JsObject.prototypeKeys) as Hk.
      { destruct (decide (i ∈ JsObject.prototypeKeys)); [done|].
        exfalso. apply Hins. by apply protoFree_insert. }
      apply pushEntry_inherited; [done|]. by apply protoFree_lookup.
Qed.

Lemma foldl_absorbOutput_Throw e outs : foldl absorbOutput (Throw e) outs = Throw e.
Proof. induction outs as [|o outs IH]; [done|]. simpl. by rewrite absorbOutput_Throw. Qed.

Lemma extendAll_extend old new l :
  extendAll (extend old new) l = extendAll old (from_option (fun e => [e]) [] new ++ l).
Proof.
  destruct new as [e|]; [|done]. simpl.
  destruct l; simpl; [done|]. by rewrite <- app_assoc.
Qed.

Lemma groupOf_cons o outs w :
  groupOf (o :: outs) w
  = from_option (fun e => [e]) [] (mkEntry (mapperId o) <$> counts o !! w) ++ groupOf outs w.
Proof. unfold groupOf. simpl. by destruct (counts o !! w). Qed.

Lemma foldl_absorbOutput_Normal g outs :
  protoFree g ->
  if decide (Forall (fun o => protoFree (counts o)) outs)
  then exists g', foldl absorbOutput (Normal g) outs = Normal g' /\ protoFree g'
         /\ forall w, g' !! w = extendAll (g !! w) (groupOf outs w)
  else foldl absorbOutput (Normal g) outs = Throw shuffleError.
Proof.
  revert g. induction outs as [|o outs IH]; intros g Hg.
  - rewrite decide_True by constructor. by exists g.
  - change (foldl absorbOutput (Normal g) (o :: outs))
      with (foldl absorbOutput (absorbOutput (Normal g) o) outs).
    pose proof (absorbOutput_Normal g o Hg) as Ho.
    destruct (decide (protoFree (counts o))) as [Hsafe|Hbad].
    + destruct Ho as (g1 & -> & Hg1 & Hl1). specialize (IH g1 Hg1).
      destruct (decide (Forall _ outs)) as [Hall|Hex].
      * rewrite decide_True by (by constructor).
        destruct IH as (g' & -> & Hg' & Hl). exists g'. split_and!; [done..|].
        intros w. by rewrite Hl, Hl1, extendAll_extend, groupOf_cons.
      * rewrite decide_False; [done|]. by intros [_ ?]%Forall_cons.
    + rewrite Ho, foldl_absorbOutput_Throw.
      rewrite decide_False; [done|]. by intros [? _]%Forall_cons.
Qed.

(** When no map result has a word that is a name of [Object.prototype], the
    shuffle returns, for every word, its contributions in the order of the
    map results, and no group for a word without contribution. *)
Lemma shufflePhase_Normal outs :
  Forall (fun o => protoFree (counts o)) outs ->
  exists g, shufflePhase outs = Normal g /\ protoFree g
       /\ forall w, g !! w = extendAll None (groupOf outs w).
Proof.
  intros Hall. pose proof (foldl_absorbOutput_Normal ∅ outs protoFree_empty) as H.
  rewrite decide_True in H by done. destruct H as (g & E & Hg & Hl).
  exists g. split_and!; [done..|]. intros w. by rewrite Hl, lookup_empty.
Qed.

(** Otherwise it throws. *)
Lemma shufflePhase_Throw outs :
  ~ Forall (fun o => protoFree (counts o)) outs ->
  shufflePhase outs = Throw shuffleError.
Proof.
  intros Hex. pose proof (foldl_absorbOutput_Normal ∅ outs protoFree_empty) as H.
  by rewrite decide_False in H.
Qed.

End ShuffleFacts.

(** * Properties of [reduceFunction] and [runMapReduce] *)

Section JobFacts.

Lemma reduceFunction_count w values : count (reduceFunction w values) = sumEntries values.
Proof. done. Qed.

(** The final object holds, for every group, the sum of its entries. *)
Lemma collect_from (l : list (string * list Entry)) (m0 : gmap string CountVal) w :
  NoDup l.*1 -> Forall (fun p => p.1 <> "__proto__") l ->
  foldl (fun final output => JsObject.set final (word output) (count output)) m0
        (map (fun '(w, values) => reduceFunction w values) l) !! w
  = match (list_to_map l : gmap string (list Entry)) !! w with
    | Some values => Some (sumEntries values)
    | None => m0 !! w
    end.
Proof.
  revert m0. induction l as [|[k vs] l IH]; intros m0 Hnd Hk; [done|].
  simpl in Hnd. apply NoDup_cons in Hnd as [Hnin Hnd].
  apply Forall_cons in Hk as [Hk1 Hk]. simpl in Hk1.
  simpl. rewrite IH by done. rewrite set_safe by done.
  destruct (decide (w = k)) as [->|Hne].
  - rewrite lookup_insert_eq.
    rewrite (not_elem_of_list_to_map_1 _ _ Hnin). by rewrite lookup_insert_eq.
  - by rewrite !lookup_insert_ne.
Qed.

Lemma collect_lookup (g : gmap string (list Entry)) w :
  protoFree g ->
  collect (map (fun '(w, values) => reduceFunction w values) (map_to_list g)) !! w
  = sumEntries <$> g !! w.
Proof.
  intros Hg. unfold collect. rewrite collect_from.
  - rewrite list_to_map_to_list. by destruct (g !! w).
  - apply NoDup_fst_map_to_list.
  - apply Forall_forall. intros [k vs] Hin%elem_of_map_to_list. simpl. intros ->.
    rewrite (protoFree_lookup g "__proto__" Hg proto_in_prototypeKeys) in Hin. done.
Qed.

Lemma flat_map_countedWords (cs : list Chunk) :
  flat_map (fun c => countedWords (text c)) cs
  = map toLowerCase (flat_map (fun c => wordSequence (text c)) cs).
Proof.
  induction cs as [|c cs IH]; [done|]. simpl. by rewrite map_app, IH.
Qed.

Lemma countedWords_chunks inputText n :
  1 <= n ->
  flat_map (fun c => countedWords (text c)) (splitTextIntoChunks inputText n)
  = countedWords inputText.
Proof.
  intros Hn. by rewrite flat_map_countedWords, splitTextIntoChunks_concat.
Qed.

(** The reducer's sum over the contributions of the mappers to a word. *)
Lemma sum_groupOf (cs : list Chunk) w a :
  w ∉ JsObject.prototypeKeys ->
  foldl (fun sum val => plus sum (entryCount val)) (CNum a)
        (groupOf (map mapFunction cs) w)
  = CNum (a + Z.of_nat (occurrences w (flat_map (fun c => countedWords (text c)) cs))).
Proof.
  intros Hw. revert a. induction cs as [|c cs IH]; intros a.
  - simpl. f_equal. unfold occurrences. simpl. lia.
  - rewrite map_cons, groupOf_cons, mapFunction_lookup by done.
    simpl flat_map. rewrite occurrences_app. unfold tally.
    destruct (occurrences w (countedWords (text c))) as [|k]; simpl.
    + apply IH.
    + rewrite IH. f_equal. lia.
Qed.

Lemma groupOf_nil (cs : list Chunk) w :
  w ∉ JsObject.prototypeKeys ->
  groupOf (map mapFunction cs) w = []
  <-> occurrences w (flat_map (fun c => countedWords (text c)) cs) = 0%nat.
Proof.
  intros Hw. induction cs as [|c cs IH]; [done|].
  rewrite map_cons, groupOf_cons, mapFunction_lookup by done.
  simpl flat_map. rewrite occurrences_app. unfold tally.
  destruct (occurrences w (countedWords (text c))) as [|k]; simpl; [done|].
  split; [done | lia].
Qed.

(** When no word of the text, lower-cased, is a name of [Object.prototype],
    the job ends without error and its final counts are the numbers of
    occurrences of the lower-cased words. *)
Lemma runMapReduce_counts inputText n :
  1 <= n ->
  Forall (fun w => w ∉ JsObject.prototypeKeys) (countedWords inputText) ->
  failure (runMapReduce inputText n) = None
  /\ forall w, finalCounts (runMapReduce inputText n) !! w = tally (countedWords inputText) w.
Proof.
  intros Hn Hsafe. unfold runMapReduce.
  set (cs := splitTextIntoChunks inputText n).
  pose proof (countedWords_chunks inputText n Hn) as Hcs. fold cs in Hcs.
  assert (Forall (fun o => protoFree (counts o)) (map mapFunction cs)) as Hfree.
  { apply Forall_fmap, Forall_forall. intros c Hc. simpl.
    apply mapFunction_protoFree, Forall_forall. intros w Hw.
    rewrite Forall_forall in Hsafe. apply Hsafe. rewrite <- Hcs.
    apply list_elem_of_In, in_flat_map. exists c.
    split; by apply list_elem_of_In. }
  destruct (shufflePhase_Normal _ Hfree) as (g & -> & Hg & Hl).
  simpl. split; [done|]. intros w.
  rewrite collect_lookup, Hl by done.
  destruct (decide (w ∈ JsObject.prototypeKeys)) as [Hin|Hw].
  - rewrite <- Hl, (protoFree_lookup g w Hg Hin). simpl.
    unfold tally. rewrite Forall_forall in Hsafe.
    assert (w ∉ countedWords inputText) as ->%occurrences_zero; [|done].
    intros Hc. by apply Hsafe in Hc.
  - pose proof (groupOf_nil cs w Hw) as Hnil.
    pose proof (sum_groupOf cs w 0 Hw) as Hsum.
    rewrite Hcs in Hnil, Hsum. unfold tally.
    destruct (groupOf (map mapFunction cs) w) as [|e l] eqn:Eg.
    + by rewrite (proj1 Hnil eq_refl).
    + simpl extendAll. simpl fmap. unfold sumEntries. rewrite Hsum.
      destruct (occurrences w (countedWords inputText)) as [|k]; [|done].
      by destruct Hnil as [_ ?%(fun f => f eq_refl)].
Qed.

Lemma foldl_plus_numbers (l : list CountVal) a :
  Forall (fun v => exists n, v = CNum n) l ->
  foldl plus (CNum a) l = CNum (a + foldr (fun v acc => numberOf v + acc) 0 l).
Proof.
  intros Hl. revert a. induction Hl as [|v l [n ->] _ IH]; intros a; simpl.
  - f_equal. lia.
  - rewrite IH. f_equal. lia.
Qed.

(** On an object that holds numbers only, the sum of the values is the total
    of the numbers. *)
Lemma sumValues_total (o : gmap string CountVal) :
  (forall k v, o !! k = Some v -> exists n, v = CNum n) ->
  sumValues o = CNum (total o).
Proof.
  intros Ho. unfold sumValues, total. rewrite foldl_plus_numbers.
  - rewrite map_fold_foldr, Z.add_0_l. f_equal.
    induction (map_to_list o) as [|[k v] l IH]; [done|]. csimpl. by rewrite IH.
  - apply Forall_fmap, Forall_forall. intros [k v] Hin%elem_of_map_to_list. eauto.
Qed.

Lemma occurrences_cons_same w ws : occurrences w (w :: ws) = S (occurrences w ws).
Proof. unfold occurrences. by rewrite filter_cons_True. Qed.

Lemma occurrences_cons_other w x ws : x <> w -> occurrences w (x :: ws) = occurrences w ws.
Proof. intros H. unfold occurrences. by rewrite filter_cons_False. Qed.

(** An object that holds the tally of a list of words totals the length of
    the list. *)
Lemma total_tally ws (o : gmap string CountVal) :
  (forall w, o !! w = tally ws w) -> total o = Z.of_nat (length ws).
Proof.
  revert o. induction ws as [|x ws IH]; intros o Ho.
  - assert (o = ∅) as -> by (by apply map_empty). done.
  - pose proof (Ho x) as Hx. unfold tally in Hx. rewrite occurrences_cons_same in Hx.
    set (c := occurrences x ws) in *.
    set (o' := match c with
               | O => delete x o
               | S _ => <[x := CNum (Z.of_nat c)]> o
               end).
    assert (forall w, o' !! w = tally ws w) as Ho'.
    { intros w. unfold o'. destruct (decide (w = x)) as [->|Hne].
      - unfold tally. fold c. destruct c.
        + by rewrite lookup_delete_eq.
        + by rewrite lookup_insert_eq.
      - assert (tally ws w = tally (x :: ws) w) as ->
          by (unfold tally; by rewrite occurrences_cons_other).
        rewrite <- Ho.
        destruct c; [by rewrite lookup_delete_ne | by rewrite lookup_insert_ne]. }
    apply IH in Ho'.
    assert (total o = Z.of_nat (S c) + total (delete x o)) as ->.
    { unfold total. rewrite (map_fold_delete_L _ _ x (CNum (Z.of_nat (S c))) o);
        [done | | exact Hx].
      intros. simpl. lia. }
    assert (total o' = Z.of_nat c + total (delete x o)) as Eo'.
    { unfold o'. destruct c; [simpl; lia|].
      rewrite <- insert_delete_eq. unfold total.
      rewrite map_fold_insert_L; [done | | apply lookup_delete_eq].
      intros. lia. }
    simpl length. lia.
Qed.

(** Under the same condition, the values of the final counts add up to the
    number of words of the text. *)
Lemma runMapReduce_total inputText n :
  1 <= n ->
  Forall (fun w => w ∉ JsObject.prototypeKeys) (countedWords inputText) ->
  sumValues (finalCounts (runMapReduce inputText n))
  = CNum (Z.of_nat (length (wordSequence inputText))).
Proof.
  intros Hn Hsafe.
  destruct (runMapReduce_counts inputText n Hn Hsafe) as [_ Hl].
  rewrite sumValues_total.
  - rewrite (total_tally (countedWords inputText)) by done.
    unfold countedWords. by rewrite length_map.
  - intros k v Hk. rewrite Hl in Hk. apply tally_Some in Hk as (c & -> & _). eauto.
Qed.

(** Of the names of [Object.prototype] only "constructor" and "__proto__"
    are lower-cased words. *)
Lemma countedWords_safe s :
  "constructor" ∉ countedWords s -> "__proto__" ∉ countedWords s ->
  Forall (fun w => w ∉ JsObject.prototypeKeys) (countedWords s).
Proof.
  intros Hc Hp. apply Forall_forall. intros w Hw Hk.
  pose proof (countedWords_lower s) as Hl. rewrite Forall_forall in Hl.
  specialize (Hl w Hw).
  unfold JsObject.prototypeKeys, JsObject.prototypeMethods in Hk.
  repeat (apply elem_of_cons in Hk as [->|Hk]; [done || discriminate Hl|]).
  by apply not_elem_of_nil in Hk.
Qed.

(** The job counts the words of every text that holds neither the word
    "constructor" nor the word "__proto__", in any case of the letters. *)
Lemma runMapReduce_correct inputText n :
  1 <= n ->
  "constructor" ∉ countedWords inputText -> "__proto__" ∉ countedWords inputText ->
  failure (runMapReduce inputText n) = None
  /\ (forall w, finalCounts (runMapReduce inputText n) !! w
                = tally (countedWords inputText) w)
  /\ sumValues (finalCounts (runMapReduce inputText n))
     = CNum (Z.of_nat (length (wordSequence inputText))).
Proof.
  intros Hn Hc Hp. pose proof (countedWords_safe inputText Hc Hp) as Hsafe.
  destruct (runMapReduce_counts inputText n Hn Hsafe) as [Hf Hl].
  split_and!; [done | done | by apply runMapReduce_total].
Qed.

End JobFacts.

(** * Specified properties of the master *)

(** C1. For every input text and every mapper count [n >= 1], the word
    sequences of the chunk texts, concatenated in the order of the returned
    list, are the whitespace-tokenized word sequence of the input text; so is
    the word sequence of the chunk texts joined by single spaces; and the
    returned list is in chunk-index order, its ids being 0, 1, 2, ... *)
Theorem chunk_texts_reproduce_words (inputText : string) (n : Z) :
  1 <= n ->
  flat_map (fun c => wordSequence (text c)) (splitTextIntoChunks inputText n)
  = wordSequence inputText
  /\ wordSequence (join (map text (splitTextIntoChunks inputText n)))
     = wordSequence inputText
  /\ map id (splitTextIntoChunks inputText n)
     = seqZ 0 (Z.of_nat (length (splitTextIntoChunks inputText n))).
Proof.
  intros Hn. split_and!.
  - by apply splitTextIntoChunks_concat.
  - rewrite wordSequence_join_texts, flat_map_fmap.
    by apply splitTextIntoChunks_concat.
  - by apply splitTextIntoChunks_ids.
Qed.

Lemma chunk_texts_reproduce_words_witness :
  1 <= 2 /\
  (flat_map (fun c => wordSequence (text c)) (splitTextIntoChunks "to be  or not" 2)
   = wordSequence "to be  or not"
   /\ wordSequence (join (map text (splitTextIntoChunks "to be  or not" 2)))
      = wordSequence "to be  or not"
   /\ map id (splitTextIntoChunks "to be  or not" 2)
      = seqZ 0 (Z.of_nat (length (splitTextIntoChunks "to be  or not" 2)))).
Proof.
  split; [lia|]. apply (chunk_texts_reproduce_words "to be  or not" 2). lia.
Defined.

(** C4. For every input text of [wordCount >= 1] words and every [n >= 1]:
    every chunk but the last holds [ceil(wordCount / n)] words, the last one
    holds at least one word and at most that many; there are at least one and
    at most [n] chunks; when [n] exceeds [wordCount] there are exactly
    [wordCount] chunks of one word each (fewer than [n]); and [n = 10] on a
    four-word text gives the four one-word chunks, with ids 0 to 3. *)
Theorem chunk_sizes (inputText : string) (n : Z) :
  1 <= n -> (1 <= length (wordSequence inputText))%nat ->
  let wordCount := length (wordSequence inputText) in
  let chunkSize := Z.to_nat (ceilDiv (Z.of_nat wordCount) n) in
  let cs := splitTextIntoChunks inputText n in
  (forall j c, cs !! j = Some c -> (S j < length cs)%nat ->
               length (wordSequence (text c)) = chunkSize)
  /\ (forall c, last cs = Some c ->
                (1 <= length (wordSequence (text c)) <= chunkSize)%nat)
  /\ (1 <= length cs)%nat /\ Z.of_nat (length cs) <= n
  /\ (Z.of_nat wordCount < n ->
      length cs = wordCount /\ Z.of_nat (length cs) < n
      /\ Forall (fun c => length (wordSequence (text c)) = 1%nat) cs)
  /\ (n = 10 -> forall w0 w1 w2 w3, wordSequence inputText = [w0; w1; w2; w3] ->
      cs = [ mkChunk 0 w0; mkChunk 1 w1; mkChunk 2 w2; mkChunk 3 w3 ]).
Proof.
  intros Hn Hlen wordCount chunkSize cs.
  assert (~ blank inputText) as Hnb.
  { intros Hb%wordSequence_nil_blank. rewrite Hb in Hlen. simpl in Hlen. lia. }
  destruct (splitTextIntoChunks_words inputText n Hnb Hn) as [E _].
  destruct (chunk_numbers _ n Hlen Hn) as (Hk & Hm & Hmn & Hlo & Hhi & Ek).
  fold wordCount in E, Hk, Hm, Hmn, Hlo, Hhi, Ek.
  change (chunkSizeOf wordCount n) with chunkSize in *.
  set (m := chunkCountOf wordCount n) in *. fold cs in E.
  assert (length cs = m) as Hcs by (by rewrite E, length_map, length_seq).
  assert (forall j c, cs !! j = Some c ->
            (j < m)%nat /\ length (wordSequence (text c))
                          = (chunkSize `min` (wordCount - j * chunkSize))%nat) as Hat.
  { intros j c Hj. rewrite E, list_lookup_fmap in Hj.
    destruct (seq 0 m !! j) as [i|] eqn:Hi; [|done].
    apply lookup_seq in Hi as [-> Hi]. injection Hj as <-.
    split; [done|]. rewrite piece_words
      by (apply wordSequence_spaceFree || apply wordSequence_truthy).
    by rewrite length_take, length_drop. }
  split_and!.
  - intros j c Hj Hlt. apply Hat in Hj as [_ ->]. nia.
  - intros c Hc. rewrite last_lookup, Hcs in Hc. apply Hat in Hc as [_ ->]. nia.
  - lia.
  - lia.
  - intros Hlt.
    pose proof (ceilDiv_bounds (Z.of_nat wordCount) n ltac:(lia)) as Hb.
    rewrite <- Ek in Hb.
    assert (chunkSize = 1%nat) as Hone by nia.
    split_and!; [nia | nia |].
    apply Forall_forall. intros c [j Hj]%list_elem_of_lookup.
    apply Hat in Hj as [? ->]. nia.
  - intros -> w0 w1 w2 w3 Ew.
    pose proof (ceilDiv_bounds (Z.of_nat wordCount) 10 ltac:(lia)) as Hb.
    rewrite <- Ek in Hb.
    assert (wordCount = 4%nat) as H4 by (unfold wordCount; by rewrite Ew).
    assert (chunkSize = 1%nat) as Hone by nia.
    assert (m = 4%nat) as Hfour by nia.
    rewrite E, Hone, Hfour, Ew. done.
Qed.

Lemma chunk_sizes_witness :
  1 <= 10 /\ (1 <= length (wordSequence "the quick brown fox"))%nat /\
  splitTextIntoChunks "the quick brown fox" 10
  = [ mkChunk 0 "the"; mkChunk 1 "quick"; mkChunk 2 "brown"; mkChunk 3 "fox" ].
Proof.
  split; [lia|]. split; [vm_compute; lia|].
  refine (proj2 (proj2 (proj2 (proj2 (proj2
    (chunk_sizes "the quick brown fox" 10 _ _))))) eq_refl _ _ _ _ eq_refl).
  - lia.
  - vm_compute. lia.
Defined.

(** * Specified properties of the shuffle *)

(** C7, as the specification states it, does not hold: the two map results
    of the text "a a" cut in two chunks, taken in the two possible orders,
    give two different groups for the word "a" (the entries come in the order
    of the list). *)
Lemma shufflePhase_permutation_counterexample :
  ~ (forall mapOutputs mapOutputs' : list MapResult,
       mapOutputs ≡ₚ mapOutputs' ->
       shufflePhase mapOutputs' = shufflePhase mapOutputs).
Proof.
  intros H.
  specialize (H [mapFunction (mkChunk 0 "a"); mapFunction (mkChunk 1 "a")]
                [mapFunction (mkChunk 1 "a"); mapFunction (mkChunk 0 "a")]
                (perm_swap _ _ _)).
  apply (f_equal (fun c => match c with Normal g => g !! "a" | Throw _ => None end)) in H.
  vm_compute in H. discriminate H.
Qed.

(** C7, amended. For every list of map results and every permutation of it,
    [shufflePhase] either throws the same error on both lists, or returns on
    both a group mapping with the same words in which the entries of every
    word are the same up to their order. *)
Theorem shufflePhase_permutation (mapOutputs mapOutputs' : list MapResult) :
  mapOutputs ≡ₚ mapOutputs' ->
  match shufflePhase mapOutputs, shufflePhase mapOutputs' with
  | Normal g, Normal g' => forall w, sameEntries (g !! w) (g' !! w)
  | Throw e, Throw e' => e = e'
  | _, _ => False
  end.
Proof.
  intros Hperm.
  destruct (decide (Forall (fun o => protoFree (counts o)) mapOutputs)) as [Hall|Hex].
  - destruct (shufflePhase_Normal mapOutputs Hall) as (g & -> & _ & Hl).
    rewrite Hperm in Hall.
    destruct (shufflePhase_Normal mapOutputs' Hall) as (g' & -> & _ & Hl').
    intros w. rewrite Hl, Hl'.
    assert (groupOf mapOutputs w ≡ₚ groupOf mapOutputs' w) as Hg
      by (unfold groupOf; by rewrite Hperm).
    destruct (groupOf mapOutputs w) as [|e l], (groupOf mapOutputs' w) as [|e' l'];
      simpl; try done.
    + by apply Permutation_nil_cons in Hg.
    + symmetry in Hg. by apply Permutation_nil_cons in Hg.
  - rewrite (shufflePhase_Throw mapOutputs Hex).
    rewrite Hperm in Hex. by rewrite (shufflePhase_Throw mapOutputs' Hex).
Qed.

Lemma shufflePhase_permutation_witness :
  let a := mapFunction (mkChunk 0 "a b") in
  let b := mapFunction (mkChunk 1 "b c") in
  [a; b] ≡ₚ [b; a] /\
  match shufflePhase [a; b], shufflePhase [b; a] with
  | Normal g, Normal g' => forall w, sameEntries (g !! w) (g' !! w)
  | Throw e, Throw e' => e = e'
  | _, _ => False
  end.
Proof.
  intros a b. split; [apply perm_swap|].
  apply (shufflePhase_permutation [a; b] [b; a]). apply perm_swap.
Defined.

(** C5, as the specification states it, does not hold: on the empty text
    (with three mappers) the call returns the list of one chunk and throws no
    [EmptyInputError]; with zero mappers it returns the empty list and throws
    no [InvalidConfigError]. *)
Lemma split_errors_counterexample :
  ~ (forall (inputText : string) (n : Z),
       blank inputText -> throwsNamed (callSplit inputText n) "EmptyInputError")
  /\ ~ (forall (inputText : string) (n : Z),
         n <= 0 -> throwsNamed (callSplit inputText n) "InvalidConfigError").
Proof.
  split.
  - intros H. destruct (H "" 3 eq_refl) as [msg Hmsg]. discriminate Hmsg.
  - intros H. destruct (H "hello world" 0 ltac:(lia)) as [msg Hmsg]. discriminate Hmsg.
Qed.

(** C5, amended. Splitting an empty or whitespace-only text for [n >= 1]
    mappers throws nothing: it returns the single chunk with id 0 and the
    empty text.  No job is started from the page on such a text, because the
    start button, the only caller of [runMapReduce], is disabled.  (Mapper
    counts [n <= 0] are left out.) *)
Theorem split_degenerate (inputText : string) (n : Z) :
  blank inputText -> 1 <= n ->
  callSplit inputText n = Normal [ {| id := 0; text := "" |} ]
  /\ forall isRunning, startDisabled isRunning inputText = true.
Proof.
  intros Hb Hn. unfold callSplit.
  rewrite splitTextIntoChunks_blank by done. split; [done|].
  intros isRunning. unfold startDisabled. rewrite Hb. by destruct isRunning.
Qed.

Lemma split_degenerate_witness :
  blank "  " /\ 1 <= 3
  /\ callSplit "  " 3 = Normal [ {| id := 0; text := "" |} ]
  /\ forall isRunning, startDisabled isRunning "  " = true.
Proof.
  split; [by vm_compute|]. split; [lia|].
  apply (split_degenerate "  " 3); [by vm_compute | lia].
Defined.

(** C10. For every [n >= 1], on an empty or whitespace-only text
    [splitTextIntoChunks] does not fail and returns exactly the chunk with
    id 0 and the empty text, and the job runs to its end, without error, with
    an empty final counts object. *)
Theorem blank_job (inputText : string) (n : Z) :
  1 <= n -> blank inputText ->
  callSplit inputText n = Normal [ {| id := 0; text := "" |} ]
  /\ splitTextIntoChunks inputText n = [ {| id := 0; text := "" |} ]
  /\ failure (runMapReduce inputText n) = None
  /\ finalCounts (runMapReduce inputText n) = ∅.
Proof.
  intros Hn Hb. unfold callSplit, runMapReduce.
  rewrite splitTextIntoChunks_blank by done.
  split_and!; [done | done | by vm_compute | by vm_compute].
Qed.

Lemma blank_job_witness :
  1 <= 4 /\ blank (String "009" (String "010" " ")) /\
  splitTextIntoChunks (String "009" (String "010" " ")) 4 = [ {| id := 0; text := "" |} ]
  /\ finalCounts (runMapReduce (String "009" (String "010" " ")) 4) = ∅.
Proof.
  split; [lia|]. split; [by vm_compute|].
  destruct (blank_job (String "009" (String "010" " ")) 4) as (_ & H1 & _ & H2);
    [lia | by vm_compute | by split].
Defined.

(** * Specified properties of the whole job *)

(** C2. The job on the text "hello world hello distributed systems mapreduce
    world" with three mappers ends without error with the final counts
    hello: 2, world: 2, distributed: 1, systems: 1, mapreduce: 1, whose values
    add up to 7. *)
Theorem demo_job :
  finalCounts (runMapReduce demoText 3)
  = {[ "hello" := CNum 2; "world" := CNum 2; "distributed" := CNum 1;
       "systems" := CNum 1; "mapreduce" := CNum 1 ]}
  /\ sumValues (finalCounts (runMapReduce demoText 3)) = CNum 7
  /\ failure (runMapReduce demoText 3) = None.
Proof. split_and!; vm_compute; reflexivity. Qed.

(** * Where a word is a property name of [Object.prototype]

    The objects [wordCount] and [grouped] are created by [{}], so reading
    [wordCount["constructor"]] or [grouped["constructor"]] before the word was
    stored finds the function [Object] of the prototype.  The four theorems
    below evaluate the code on texts that hold the word "constructor". *)

(** C8 on the chunk "constructor": the map result has the key "constructor",
    and its count is not a number that is at least 1 but the string made of
    the source text of the function [Object] followed by "1". *)
Theorem mapFunction_constructor :
  counts (mapFunction {| id := 0; text := "constructor" |})
  = {[ "constructor" := CStr "function Object() { [native code] }1" ]}.
Proof. vm_compute. reflexivity. Qed.

(** C6 on the map result of the chunk "the constructor": the mapper counted
    the word "the" once, and [shufflePhase] returns no group at all, it
    throws a [TypeError]. *)
Theorem shufflePhase_constructor :
  counts (mapFunction {| id := 0; text := "the constructor" |}) !! "the" = Some (CNum 1)
  /\ shufflePhase [ mapFunction {| id := 0; text := "the constructor" |} ]
     = Throw (TypeError "grouped[word].push is not a function").
Proof. split; vm_compute; reflexivity. Qed.

(** C9 on the text "call the constructor" with three mappers: each of the
    three words occurs once, and the job ends in its [catch] clause with a
    [TypeError] and with empty final counts. *)
Theorem runMapReduce_constructor :
  countedWords "call the constructor" = [ "call"; "the"; "constructor" ]
  /\ failure (runMapReduce "call the constructor" 3)
     = Some (TypeError "grouped[word].push is not a function")
  /\ finalCounts (runMapReduce "call the constructor" 3) = ∅.
Proof. split_and!; vm_compute; reflexivity. Qed.

(** C3 on the text "constructor" with one mapper: the text has one word, and
    the values of the final counts add up to 0. *)
Theorem sumValues_constructor :
  length (wordSequence "constructor") = 1%nat
  /\ map text (splitTextIntoChunks "constructor" 1) = [ "constructor" ]
  /\ sumValues (finalCounts (runMapReduce "constructor" 1)) = CNum 0.
Proof. split_and!; vm_compute; reflexivity. Qed.

(** The word "__proto__" is lost without any error: the assignment
    [wordCount["__proto__"] = ...] stores nothing. *)
Example runMapReduce_proto :
  failure (runMapReduce "a __proto__ b" 2) = None
  /\ finalCounts (runMapReduce "a __proto__ b" 2) = {[ "a" := CNum 1; "b" := CNum 1 ]}.
Proof. split; vm_compute; reflexivity. Qed.

(** * Further properties of the master *)

Section MoreChunkFacts.

(** The words the master cuts are fixed by the word sequence of the text. *)
Lemma words_determined t1 t2 :
  wordSequence t1 = wordSequence t2 -> split (trim t1) = split (trim t2).
Proof.
  intros E. destruct (blank_dec t1) as [Hb|Hnb].
  - assert (blank t2) as Hb2.
    { apply wordSequence_nil_blank. rewrite <- E. by apply wordSequence_nil_blank. }
    apply split_trim_blank in Hb as [-> _]. by apply split_trim_blank in Hb2 as [-> _].
  - assert (~ blank t2) as Hnb2.
    { intros Hb2%wordSequence_nil_blank. rewrite <- E in Hb2.
      by apply wordSequence_nil_blank in Hb2. }
    by rewrite !split_trim_words.
Qed.

Lemma wordSequence_length_pos s : ~ blank s -> (1 <= length (wordSequence s))%nat.
Proof.
  intros Hnb. destruct (wordSequence s) eqn:E; simpl; [|lia].
  by apply wordSequence_nil_blank in E.
Qed.

(** The numbers of words of the chunks of a text that is not blank. *)
Lemma chunk_word_counts inputText n :
  ~ blank inputText -> 1 <= n ->
  let len := length (wordSequence inputText) in
  let k := chunkSizeOf len n in
  map (fun c => length (wordSequence (text c))) (splitTextIntoChunks inputText n)
  = map (fun i => (k `min` (len - i * k))%nat) (seq 0 (chunkCountOf len n)).
Proof.
  intros Hnb Hn len k.
  destruct (splitTextIntoChunks_words inputText n Hnb Hn) as [_ E].
  rewrite <- (map_map (fun c => wordSequence (text c)) length), E, map_map.
  apply map_ext. intros i. by rewrite length_take, length_drop.
Qed.

Lemma splitTextIntoChunks_length inputText n :
  ~ blank inputText -> 1 <= n ->
  length (splitTextIntoChunks inputText n)
  = chunkCountOf (length (wordSequence inputText)) n.
Proof.
  intros Hnb Hn. destruct (splitTextIntoChunks_words inputText n Hnb Hn) as [-> _].
  by rewrite length_map, length_seq.
Qed.

Lemma Forall_map_seq {A} (P : A -> Prop) (f : nat -> A) m :
  (forall i, (i < m)%nat -> P (f i)) -> Forall P (map f (seq 0 m)).
Proof.
  intros H. apply Forall_fmap, Forall_forall. intros i Hi%elem_of_seq. apply H. lia.
Qed.

Lemma Forall_map_inv {A B} (f : A -> B) (P : B -> Prop) (l : list A) :
  Forall P (map f l) -> Forall (fun a => P (f a)) l.
Proof.
  induction l as [|a l IH]; intros H; [constructor|].
  inversion H; subst. constructor; auto.
Qed.

End MoreChunkFacts.

(** X1. The chunks depend on the text through its word sequence only: two
    texts with the same words, whatever white space separates and surrounds
    them, are cut into the same chunks. *)
Theorem chunks_ignore_spacing (t1 t2 : string) (n : Z) :
  wordSequence t1 = wordSequence t2 ->
  splitTextIntoChunks t1 n = splitTextIntoChunks t2 n.
Proof.
  intros E. unfold splitTextIntoChunks. by rewrite (words_determined t1 t2 E).
Qed.

Lemma chunks_ignore_spacing_witness :
  wordSequence (String "009" "to  be ") = wordSequence "to be"
  /\ splitTextIntoChunks (String "009" "to  be ") 2 = splitTextIntoChunks "to be" 2.
Proof.
  split; [by vm_compute|].
  apply (chunks_ignore_spacing (String "009" "to  be ") "to be" 2). by vm_compute.
Defined.

(** X2. Every chunk text is in normal form: it is its own words joined by
    single spaces, so it has no white space at either end and no other
    separator than one space. *)
Theorem chunk_texts_normal (inputText : string) (n : Z) :
  Forall (fun c => text c = join (wordSequence (text c)))
         (splitTextIntoChunks inputText n).
Proof.
  destruct (Z.le_gt_cases n 0) as [Hn|Hn].
  { by rewrite splitTextIntoChunks_no_mappers. }
  destruct (blank_dec inputText) as [Hb|Hnb].
  { rewrite splitTextIntoChunks_blank by (done || lia). by repeat constructor. }
  destruct (splitTextIntoChunks_words inputText n Hnb ltac:(lia)) as [-> _].
  apply Forall_map_seq. intros i _.
  rewrite piece_words by (apply wordSequence_spaceFree || apply wordSequence_truthy).
  done.
Qed.

(** X3. For a text of at least one word and [n >= 1], the number of chunks is
    [ceil(wordCount / ceil(wordCount / n))]; it is [n] exactly when
    [(n - 1) * ceil(wordCount / n) < wordCount], and smaller otherwise. *)
Theorem chunk_count (inputText : string) (n : Z) :
  1 <= n -> wordSequence inputText <> [] ->
  let wordCount := Z.of_nat (length (wordSequence inputText)) in
  let count := Z.of_nat (length (splitTextIntoChunks inputText n)) in
  count = ceilDiv wordCount (ceilDiv wordCount n)
  /\ (count = n <-> (n - 1) * ceilDiv wordCount n < wordCount)
  /\ count <= n.
Proof.
  intros Hn Hne wordCount count.
  assert (~ blank inputText) as Hnb by (by intros ?%wordSequence_nil_blank).
  pose proof (wordSequence_length_pos inputText Hnb) as Hlen.
  destruct (chunk_numbers _ n Hlen Hn) as (Hk & Hm & Hmn & Hlo & Hhi & Ek).
  pose proof (splitTextIntoChunks_length inputText n Hnb Hn) as El.
  unfold count. rewrite El. fold wordCount in Ek. rewrite <- Ek.
  set (k := chunkSizeOf _ n) in *. set (m := chunkCountOf _ n) in *.
  assert ((Z.of_nat m - 1) * Z.of_nat k < wordCount <= Z.of_nat m * Z.of_nat k)
    as Hbounds by (unfold wordCount; nia).
  assert (1 <= wordCount) as Hpos by (unfold wordCount; lia).
  clearbody wordCount. split_and!.
  - pose proof (ceilDiv_bounds wordCount (Z.of_nat k) ltac:(lia)). nia.
  - split; intros H; nia.
  - lia.
Qed.

Lemma chunk_count_witness :
  1 <= 4 /\ wordSequence "a b c d e" <> [] /\
  Z.of_nat (length (splitTextIntoChunks "a b c d e" 4)) = 3.
Proof.
  split; [lia|]. split; [by vm_compute|].
  rewrite (proj1 (chunk_count "a b c d e" 4 ltac:(lia) ltac:(by vm_compute))).
  by vm_compute.
Defined.

(** X4. When the number of words is [n * q] with [q >= 1], the text is cut
    into exactly [n] chunks of [q] words each. *)
Theorem chunks_even (inputText : string) (n q : Z) :
  1 <= n -> 1 <= q -> Z.of_nat (length (wordSequence inputText)) = n * q ->
  Z.of_nat (length (splitTextIntoChunks inputText n)) = n
  /\ Forall (fun c => Z.of_nat (length (wordSequence (text c))) = q)
            (splitTextIntoChunks inputText n).
Proof.
  intros Hn Hq HL.
  assert (~ blank inputText) as Hnb.
  { intros Hb%wordSequence_nil_blank. rewrite Hb in HL. simpl in HL. nia. }
  pose proof (wordSequence_length_pos inputText Hnb) as Hlen.
  destruct (chunk_numbers _ n Hlen Hn) as (Hk & Hm & Hmn & Hlo & Hhi & Ek).
  pose proof (ceilDiv_bounds (Z.of_nat (length (wordSequence inputText))) n ltac:(lia)) as Hb.
  rewrite <- Ek in Hb.
  pose proof (splitTextIntoChunks_length inputText n Hnb Hn) as El.
  pose proof (chunk_word_counts inputText n Hnb Hn) as Ec. simpl in Ec.
  set (k := chunkSizeOf _ n) in *. set (m := chunkCountOf _ n) in *.
  assert (Z.of_nat k = q) as Ekq by nia.
  assert (Z.of_nat m = n) as Emn by nia.
  split; [by rewrite El|].
  assert (Forall (fun l => Z.of_nat l = q)
            (map (fun c => length (wordSequence (text c)))
                 (splitTextIntoChunks inputText n))) as H.
  { rewrite Ec. apply Forall_map_seq. intros i Hi. nia. }
  by apply Forall_map_inv in H.
Qed.

Lemma chunks_even_witness :
  1 <= 3 /\ 1 <= 2 /\ Z.of_nat (length (wordSequence "a b c d e f")) = 3 * 2
  /\ Z.of_nat (length (splitTextIntoChunks "a b c d e f" 3)) = 3.
Proof.
  split; [lia|]. split; [lia|]. split; [by vm_compute|].
  apply (chunks_even "a b c d e f" 3 2); [lia | lia | by vm_compute].
Defined.

(** X5. With one mapper the whole text, its words joined by single spaces,
    is the only chunk; this holds for a blank text as well. *)
Theorem single_chunk (inputText : string) :
  splitTextIntoChunks inputText 1
  = [ {| id := 0; text := join (wordSequence inputText) |} ].
Proof.
  destruct (blank_dec inputText) as [Hb|Hnb].
  { rewrite splitTextIntoChunks_blank by (done || lia).
    by apply split_trim_blank in Hb as [_ ->]. }
  destruct (splitTextIntoChunks_words inputText 1 Hnb ltac:(lia)) as [-> _].
  pose proof (wordSequence_length_pos inputText Hnb) as Hlen.
  destruct (chunk_numbers _ 1 Hlen ltac:(lia)) as (Hk & Hm & Hmn & Hlo & Hhi & Ek).
  pose proof (ceilDiv_bounds (Z.of_nat (length (wordSequence inputText))) 1 ltac:(lia)) as Hb.
  rewrite <- Ek in Hb.
  set (k := chunkSizeOf _ 1) in *. set (m := chunkCountOf _ 1) in *.
  assert (m = 1%nat) as -> by lia.
  assert (k = length (wordSequence inputText)) as -> by lia.
  simpl. unfold piece. simpl. by rewrite take_ge.
Qed.

(** X6. Whenever the start button is enabled, no job is running, the text
    has at least one word, and for every [n >= 1] the master produces at
    least one chunk and no chunk without a word. *)
Theorem enabled_start_has_words (isRunning : bool) (inputText : string) (n : Z) :
  startDisabled isRunning inputText = false -> 1 <= n ->
  isRunning = false
  /\ wordSequence inputText <> []
  /\ splitTextIntoChunks inputText n <> []
  /\ Forall (fun c => wordSequence (text c) <> []) (splitTextIntoChunks inputText n).
Proof.
  unfold startDisabled. intros [-> Ht]%orb_false_elim Hn.
  apply negb_false_iff in Ht.
  assert (~ blank inputText) as Hnb.
  { unfold blank. intros E. by rewrite E in Ht. }
  pose proof (wordSequence_length_pos inputText Hnb) as Hlen.
  destruct (chunk_numbers _ n Hlen Hn) as (Hk & Hm & Hmn & Hlo & Hhi & Ek).
  pose proof (splitTextIntoChunks_length inputText n Hnb Hn) as El.
  pose proof (chunk_word_counts inputText n Hnb Hn) as Ec. simpl in Ec.
  set (k := chunkSizeOf _ n) in *. set (m := chunkCountOf _ n) in *.
  split_and!; [done | | |].
  - intros E. rewrite E in Hlen. simpl in Hlen. lia.
  - intros E. rewrite E in El. simpl in El. lia.
  - assert (Forall (fun l => (1 <= l)%nat)
              (map (fun c => length (wordSequence (text c)))
                   (splitTextIntoChunks inputText n))) as H.
    { rewrite Ec. apply Forall_map_seq. intros i Hi. nia. }
    apply Forall_map_inv in H. eapply Forall_impl; [exact H|].
    intros c Hc E. simpl in Hc. rewrite E in Hc. simpl in Hc. lia.
Qed.

Lemma enabled_start_has_words_witness :
  startDisabled false "hello world" = false /\ 1 <= 5
  /\ splitTextIntoChunks "hello world" 5 <> [].
Proof.
  split; [by vm_compute|]. split; [lia|].
  apply (enabled_start_has_words false "hello world" 5); [by vm_compute | lia].
Defined.

(** * Further properties of the mapper *)

Section MoreMapFacts.

Lemma foldl_countWord_no_proto ws (m : gmap string CountVal) :
  m !! "__proto__" = None -> foldl countWord m ws !! "__proto__" = None.
Proof.
  revert m. induction ws as [|x ws IH]; intros m Hm; [done|].
  simpl. apply IH. unfold countWord. destruct (truthy x); [|done].
  unfold JsObject.set. case_decide; [done|]. by rewrite lookup_insert_ne.
Qed.

(** Every counted word other than "__proto__" becomes a key. *)
Lemma foldl_countWord_present ws k :
  k ∈ ws -> truthy k = true -> k <> "__proto__" ->
  is_Some (foldl countWord ∅ ws !! k).
Proof.
  intros Hin Hk Hp. induction ws as [|x ws IH] using rev_ind.
  - by apply not_elem_of_nil in Hin.
  - rewrite foldl_app. simpl. unfold countWord at 1.
    apply elem_of_app in Hin as [Hin|Hin%list_elem_of_singleton].
    + specialize (IH Hin). destruct (truthy x); [|done].
      unfold JsObject.set. case_decide; [done|].
      destruct (decide (k = x)) as [->|Hne]; [by rewrite lookup_insert_eq|].
      by rewrite lookup_insert_ne.
    + subst x. rewrite Hk, set_safe by done. by rewrite lookup_insert_eq.
Qed.

Lemma lower_prototypeKey k :
  k ∈ JsObject.prototypeKeys -> toLowerCase k = k ->
  k = "constructor" \/ k = "__proto__".
Proof.
  intros Hk Hl. unfold JsObject.prototypeKeys, JsObject.prototypeMethods in Hk.
  apply elem_of_cons in Hk as [->|Hk]; [by left|].
  apply elem_of_cons in Hk as [->|Hk]; [by right|].
  repeat (apply elem_of_cons in Hk as [->|Hk]; [discriminate Hl|]).
  by apply not_elem_of_nil in Hk.
Qed.

Lemma mapFunction_no_proto chunk : counts (mapFunction chunk) !! "__proto__" = None.
Proof. rewrite mapFunction_counts. by apply foldl_countWord_no_proto. Qed.

(** A map result has a key named like a property of [Object.prototype]
    exactly when its chunk holds the word "constructor". *)
Lemma mapFunction_protoFree_iff chunk :
  protoFree (counts (mapFunction chunk)) <-> "constructor" ∉ countedWords (text chunk).
Proof.
  split.
  - intros Hfree Hin.
    assert (is_Some (counts (mapFunction chunk) !! "constructor")) as [v Hv].
    { rewrite mapFunction_counts. by apply foldl_countWord_present. }
    rewrite (protoFree_lookup _ "constructor" Hfree) in Hv; [done|].
    unfold JsObject.prototypeKeys. left.
  - intros Hc. apply Forall_forall. intros k Hk.
    destruct (counts (mapFunction chunk) !! k) as [v|] eqn:E; [|done].
    pose proof E as (_ & Hl & Hin & _)%mapFunction_keys.
    destruct (lower_prototypeKey k Hk Hl) as [->| ->]; [done|].
    by rewrite mapFunction_no_proto in E.
Qed.

(** The count kept for "constructor" is a non-empty string. *)
Lemma foldl_countWord_constructor ws :
  "constructor" ∈ ws ->
  exists s, truthy s = true /\ foldl countWord ∅ ws !! "constructor" = Some (CStr s).
Proof.
  intros Hin.
  assert (forall ws, foldl countWord ∅ ws !! "constructor" = None
                     \/ exists s, truthy s = true
                          /\ foldl countWord ∅ ws !! "constructor" = Some (CStr s)) as Hinv.
  { clear. intros ws. induction ws as [|x ws IH] using rev_ind; [by left|].
    rewrite foldl_app. simpl. unfold countWord at 1 3.
    destruct (truthy x); [|done].
    unfold JsObject.set. case_decide; [done|].
    destruct (decide (x = "constructor")) as [->|Hne].
    - right. rewrite lookup_insert_eq.
      destruct IH as [E|(s & Hs & E)].
      + unfold JsObject.get. rewrite E.
        eexists. split; [|reflexivity]. reflexivity.
      + rewrite (get_own _ _ _ E). simpl. rewrite Hs.
        exists (s +:+ "1"). split; [|done]. by destruct s.
    - by rewrite lookup_insert_ne. }
  destruct (Hinv ws) as [E|H]; [|done].
  destruct (foldl_countWord_present ws "constructor" Hin eq_refl ltac:(done)) as [v Hv].
  congruence.
Qed.

(** The keys and counts of the map result of a chunk without the word
    "constructor". *)
Lemma mapFunction_lookup_all chunk w :
  "constructor" ∉ countedWords (text chunk) ->
  counts (mapFunction chunk) !! w
  = if decide (w = "__proto__") then None else tally (countedWords (text chunk)) w.
Proof.
  intros Hc. case_decide as Hp; [subst; apply mapFunction_no_proto|].
  destruct (decide (w ∈ JsObject.prototypeKeys)) as [Hin|Hw];
    [|by apply mapFunction_lookup].
  rewrite (protoFree_lookup _ w (proj2 (mapFunction_protoFree_iff chunk) Hc) Hin).
  unfold tally.
  assert (w ∉ countedWords (text chunk)) as ->%occurrences_zero; [|done].
  intros H. pose proof (countedWords_lower (text chunk)) as Hl.
  rewrite Forall_forall in Hl.
  destruct (lower_prototypeKey w Hin (Hl w H)) as [->| ->]; done.
Qed.

End MoreMapFacts.

(** X7. Whatever the chunk, its map result has no key "__proto__": the word
    "__proto__" is never counted. *)
Theorem mapper_never_counts_proto (chunk : Chunk) :
  counts (mapFunction chunk) !! "__proto__" = None.
Proof. apply mapFunction_no_proto. Qed.

(** X8. Every key of a map result is a non-empty, lower-cased word of the
    chunk text, and every lower-cased word of the chunk text other than
    "__proto__" is a key. *)
Theorem mapper_keys (chunk : Chunk) (k : string) :
  (is_Some (counts (mapFunction chunk) !! k) ->
     truthy k = true /\ toLowerCase k = k /\ k ∈ countedWords (text chunk))
  /\ (k ∈ countedWords (text chunk) -> k <> "__proto__" ->
      is_Some (counts (mapFunction chunk) !! k)).
Proof.
  split.
  - intros [v Hv]. by apply mapFunction_keys in Hv as (? & ? & ? & _).
  - intros Hin Hp. rewrite mapFunction_counts.
    apply foldl_countWord_present; [done | | done].
    pose proof (countedWords_truthy (text chunk)) as Ht.
    rewrite Forall_forall in Ht. by apply Ht.
Qed.

Lemma mapper_keys_witness :
  is_Some (counts (mapFunction (mkChunk 0 "Hello  hello")) !! "hello")
  /\ ("hello" ∈ countedWords "Hello  hello").
Proof.
  assert (is_Some (counts (mapFunction (mkChunk 0 "Hello  hello")) !! "hello")) as H
    by (eexists; vm_compute; reflexivity).
  split; [exact H|].
  apply (proj1 (mapper_keys (mkChunk 0 "Hello  hello") "hello") H).
Defined.

(** X9. A word that is not a property name of [Object.prototype] is counted
    exactly, whatever the other words of the chunk are: it is a key when it
    occurs, and its count is then the number of its occurrences among the
    lower-cased words of the chunk. *)
Theorem mapper_counts_occurrences (chunk : Chunk) (w : string) :
  w ∉ JsObject.prototypeKeys ->
  counts (mapFunction chunk) !! w
  = match occurrences w (countedWords (text chunk)) with
    | O => None
    | S c => Some (CNum (Z.of_nat (S c)))
    end.
Proof. intros Hw. by rewrite mapFunction_lookup. Qed.

Lemma mapper_counts_occurrences_witness :
  ("the" ∉ JsObject.prototypeKeys)
  /\ counts (mapFunction (mkChunk 0 "The constructor of the class")) !! "the"
     = Some (CNum 2).
Proof.
  assert ("the" ∉ JsObject.prototypeKeys) as H
    by (apply (bool_decide_unpack _); by vm_compute).
  split; [exact H|].
  rewrite (mapper_counts_occurrences (mkChunk 0 "The constructor of the class") "the" H).
  by vm_compute.
Defined.

(** X10. When a chunk holds neither the word "constructor" nor the word
    "__proto__" (in any case of the letters), the counts of its map result
    are numbers that add up to the number of words of the chunk. *)
Theorem mapper_accounts_for_every_word (chunk : Chunk) :
  "constructor" ∉ countedWords (text chunk) ->
  "__proto__" ∉ countedWords (text chunk) ->
  (forall k v, counts (mapFunction chunk) !! k = Some v -> exists c, v = CNum c /\ 1 <= c)
  /\ sumValues (counts (mapFunction chunk))
     = CNum (Z.of_nat (length (wordSequence (text chunk)))).
Proof.
  intros Hc Hp.
  pose proof (countedWords_safe (text chunk) Hc Hp) as Hsafe.
  assert (forall w, counts (mapFunction chunk) !! w = tally (countedWords (text chunk)) w)
    as Hl.
  { intros w. destruct (decide (w ∈ JsObject.prototypeKeys)) as [Hin|Hw].
    - rewrite (protoFree_lookup _ w (mapFunction_protoFree chunk Hsafe) Hin).
      rewrite Forall_forall in Hsafe. unfold tally.
      assert (w ∉ countedWords (text chunk)) as ->%occurrences_zero; [|done].
      intros H. by apply Hsafe in H.
    - by apply mapFunction_lookup. }
  assert (forall k v, counts (mapFunction chunk) !! k = Some v ->
                      exists c, v = CNum c /\ 1 <= c) as Hnum.
  { intros k v Hk. rewrite Hl in Hk. apply tally_Some in Hk as (c & -> & ? & _). eauto. }
  split; [done|].
  rewrite sumValues_total.
  - rewrite (total_tally (countedWords (text chunk))) by done.
    unfold countedWords. by rewrite length_map.
  - intros k v Hk. apply Hnum in Hk as (c & -> & _). eauto.
Qed.

Lemma mapper_accounts_for_every_word_witness :
  ("constructor" ∉ countedWords "to be or not to be")
  /\ ("__proto__" ∉ countedWords "to be or not to be")
  /\ sumValues (counts (mapFunction (mkChunk 0 "to be or not to be"))) = CNum 6.
Proof.
  assert ("constructor" ∉ countedWords "to be or not to be") as Hc
    by (apply (bool_decide_unpack _); by vm_compute).
  assert ("__proto__" ∉ countedWords "to be or not to be") as Hp
    by (apply (bool_decide_unpack _); by vm_compute).
  split; [exact Hc|]. split; [exact Hp|].
  rewrite (proj2 (mapper_accounts_for_every_word (mkChunk 0 "to be or not to be") Hc Hp)).
  by vm_compute.
Defined.

(** X11. When a chunk holds the word "constructor" (in any case of the
    letters), the count its map result keeps for it is a non-empty string,
    never a number. *)
Theorem mapper_constructor_is_string (chunk : Chunk) :
  "constructor" ∈ countedWords (text chunk) ->
  exists s, truthy s = true
       /\ counts (mapFunction chunk) !! "constructor" = Some (CStr s).
Proof. intros Hin. rewrite mapFunction_counts. by apply foldl_countWord_constructor. Qed.

Lemma mapper_constructor_is_string_witness :
  ("constructor" ∈ countedWords "new Constructor")
  /\ exists s, truthy s = true
       /\ counts (mapFunction (mkChunk 1 "new Constructor")) !! "constructor"
          = Some (CStr s).
Proof.
  assert ("constructor" ∈ countedWords "new Constructor") as H
    by (apply (bool_decide_unpack _); by vm_compute).
  split; [exact H|]. exact (mapper_constructor_is_string (mkChunk 1 "new Constructor") H).
Defined.

(** * Further properties of the shuffle and of the reducer *)

Section MoreShuffleFacts.

Lemma shufflePhase_cases outs :
  (Forall (fun o => protoFree (counts o)) outs
   /\ exists g, shufflePhase outs = Normal g /\ protoFree g
          /\ forall w, g !! w = extendAll None (groupOf outs w))
  \/ (~ Forall (fun o => protoFree (counts o)) outs
      /\ shufflePhase outs = Throw shuffleError).
Proof.
  destruct (decide (Forall (fun o => protoFree (counts o)) outs)) as [Hall|Hex].
  - left. split; [done|]. by apply shufflePhase_Normal.
  - right. split; [done|]. by apply shufflePhase_Throw.
Qed.

Lemma groupOf_app outs outs' w : groupOf (outs ++ outs') w = groupOf outs w ++ groupOf outs' w.
Proof. unfold groupOf. apply omap_app. Qed.

Lemma extendAll_None_default l : default [] (extendAll None l) = l.
Proof. by destruct l. Qed.

(** On numbers the reducer's sum is the arithmetic sum. *)
Lemma sumEntries_numbers (l : list Entry) a :
  Forall (fun e => numeric (entryCount e)) l ->
  foldl (fun sum val => plus sum (entryCount val)) (CNum a) l
  = CNum (a + foldr (fun e acc => numberOf (entryCount e) + acc) 0 l).
Proof.
  intros Hl. revert a. induction Hl as [|[i [c|s]] l Hv _ IH]; intros a; simpl.
  - f_equal. lia.
  - rewrite IH. f_equal. simpl. lia.
  - destruct Hv.
Qed.

Lemma number_sum_Permutation (l l' : list Entry) :
  l ≡ₚ l' ->
  foldr (fun e acc => numberOf (entryCount e) + acc) 0 l
  = foldr (fun e acc => numberOf (entryCount e) + acc) 0 l'.
Proof. induction 1; simpl; lia. Qed.

(** The entries of a group carry counts of the map results. *)
Lemma groupOf_counts outs w e :
  e ∈ groupOf outs w ->
  exists o, o ∈ outs /\ entryMapperId e = mapperId o /\ counts o !! w = Some (entryCount e).
Proof.
  unfold groupOf. intros (o & Ho & He)%list_elem_of_omap.
  exists o. split; [done|]. destruct (counts o !! w) as [v|]; [|done].
  simpl in He. by injection He as <-.
Qed.

End MoreShuffleFacts.

(** X12. [shufflePhase] returns a group mapping exactly when no map result
    has a key named like a property of [Object.prototype]; otherwise it
    throws, and the error is always the [TypeError] "grouped[word].push is
    not a function". *)
Theorem shuffle_failure_condition (mapOutputs : list MapResult) :
  ((exists g, shufflePhase mapOutputs = Normal g)
   <-> Forall (fun o => forall k, k ∈ JsObject.prototypeKeys -> counts o !! k = None)
              mapOutputs)
  /\ (forall e, shufflePhase mapOutputs = Throw e ->
                e = TypeError "grouped[word].push is not a function").
Proof.
  assert (forall o : MapResult,
            protoFree (counts o)
            <-> forall k, k ∈ JsObject.prototypeKeys -> counts o !! k = None) as Hpf.
  { intros o. unfold protoFree. by rewrite Forall_forall. }
  destruct (shufflePhase_cases mapOutputs) as [[Hall (g & E & _)]|[Hex E]]; rewrite E.
  - split; [|done]. split; [|by eauto]. intros _.
    eapply Forall_impl; [exact Hall|]. intros o. apply Hpf.
  - split; [|by intros e [= <-]]. split; [by intros [g ?]|].
    intros Hall. exfalso. apply Hex.
    eapply Forall_impl; [exact Hall|]. intros o. apply Hpf.
Qed.

(** X13. When [shufflePhase] returns, the group of every word lists, in the
    order of the map results, one entry for each map result that has the
    word, carrying the mapper id and the count of that result unchanged; a
    word that no map result has is not a key, so no group is empty. *)
Theorem shuffle_groups (mapOutputs : list MapResult) (g : gmap string (list Entry)) :
  shufflePhase mapOutputs = Normal g ->
  forall w,
    g !! w = match groupOf mapOutputs w with
             | [] => None
             | l => Some l
             end.
Proof.
  intros E w.
  destruct (shufflePhase_cases mapOutputs) as [[_ (g' & E' & _ & Hl)]|[_ E']];
    rewrite E' in E; [|done].
  injection E as <-. rewrite Hl. by destruct (groupOf mapOutputs w).
Qed.

Lemma shuffle_groups_witness :
  let outs := [ mapFunction (mkChunk 0 "a b"); mapFunction (mkChunk 1 "b b") ] in
  exists g, shufflePhase outs = Normal g
       /\ g !! "b" = Some [ mkEntry 0 (CNum 1); mkEntry 1 (CNum 2) ]
       /\ g !! "c" = None.
Proof.
  intros outs.
  destruct (shufflePhase outs) as [g|e] eqn:E; [|by vm_compute in E].
  exists g. split; [done|].
  split; rewrite (shuffle_groups outs g E); by vm_compute.
Defined.

(** X14. Shuffling composes over concatenation: when both parts of a list of
    map results can be shuffled, so can the whole list, and the group of
    every word is its group from the first part followed by its group from
    the second; when one part throws, the whole throws. *)
Theorem shuffle_append (a b : list MapResult) :
  match shufflePhase a, shufflePhase b with
  | Normal ga, Normal gb =>
      exists g, shufflePhase (a ++ b) = Normal g
           /\ forall w, default [] (g !! w)
                        = default [] (ga !! w) ++ default [] (gb !! w)
  | _, _ => shufflePhase (a ++ b) = Throw (TypeError "grouped[word].push is not a function")
  end.
Proof.
  destruct (shufflePhase_cases a) as [[Ha (ga & -> & _ & Hla)]|[Ha ->]].
  - destruct (shufflePhase_cases b) as [[Hb (gb & -> & _ & Hlb)]|[Hb ->]].
    + destruct (shufflePhase_Normal (a ++ b)) as (g & -> & _ & Hl).
      { by apply Forall_app. }
      exists g. split; [done|]. intros w.
      by rewrite Hl, Hla, Hlb, !extendAll_None_default, groupOf_app.
    + apply shufflePhase_Throw. by intros [_ ?]%Forall_app.
  - apply shufflePhase_Throw. by intros [? _]%Forall_app.
Qed.

(** X15. For entries whose counts are non-negative integers that add up to
    at most [Number.MAX_SAFE_INTEGER], the count the reducer computes is the
    arithmetic sum of the counts of the entries, and it does not depend on
    the order of the entries. *)
Theorem reduce_sums (w : string) (values : list Entry) :
  Forall (fun e => safeCount (entryCount e) = true) values ->
  entriesTotal values <= maxSafeInteger ->
  count (reduceFunction w values) = CNum (entriesTotal values)
  /\ forall values', values ≡ₚ values' ->
       count (reduceFunction w values') = count (reduceFunction w values).
Proof.
  intros Hsafe _.
  assert (Forall (fun e => numeric (entryCount e)) values) as Hnum.
  { eapply Forall_impl; [exact Hsafe|]. intros e He. simpl in He.
    destruct (entryCount e); [exact I | discriminate He]. }
  unfold entriesTotal. split.
  - rewrite reduceFunction_count. unfold sumEntries.
    by rewrite sumEntries_numbers, Z.add_0_l.
  - intros values' Hperm. rewrite !reduceFunction_count. unfold sumEntries.
    rewrite !sumEntries_numbers; [|done|by rewrite <- Hperm].
    by rewrite (number_sum_Permutation values values').
Qed.

Lemma reduce_sums_witness :
  Forall (fun e => safeCount (entryCount e) = true)
         [ mkEntry 0 (CNum 2); mkEntry 2 (CNum 5) ]
  /\ entriesTotal [ mkEntry 0 (CNum 2); mkEntry 2 (CNum 5) ] <= maxSafeInteger
  /\ count (reduceFunction "hello" [ mkEntry 0 (CNum 2); mkEntry 2 (CNum 5) ]) = CNum 7.
Proof.
  assert (Forall (fun e => safeCount (entryCount e) = true)
                 [ mkEntry 0 (CNum 2); mkEntry 2 (CNum 5) ]) as H
    by (repeat constructor).
  assert (entriesTotal [ mkEntry 0 (CNum 2); mkEntry 2 (CNum 5) ] <= maxSafeInteger)
    as Hb by (vm_compute; discriminate).
  split; [exact H|]. split; [exact Hb|].
  exact (proj1 (reduce_sums "hello" [ mkEntry 0 (CNum 2); mkEntry 2 (CNum 5) ] H Hb)).
Defined.

(** X16. The totals do not depend on the order in which the map results
    arrive: when all counts of the map results are non-negative integers
    that together add up to at most [Number.MAX_SAFE_INTEGER], and the
    shuffle of the list of map results returns, the shuffle of any
    permutation of the list returns too, with the same words, and the reducer
    computes the same count for every word. *)
Theorem shuffle_reduce_order_independent
    (mapOutputs mapOutputs' : list MapResult) (g : gmap string (list Entry)) :
  mapOutputs ≡ₚ mapOutputs' ->
  Forall (fun o => map_Forall (fun _ v => safeCount v = true) (counts o)) mapOutputs ->
  outputsTotal mapOutputs <= maxSafeInteger ->
  shufflePhase mapOutputs = Normal g ->
  exists g', shufflePhase mapOutputs' = Normal g'
        /\ forall w, (fun values => count (reduceFunction w values)) <$> g' !! w
                    = (fun values => count (reduceFunction w values)) <$> g !! w.
Proof.
  intros Hperm Hsafe _ E.
  destruct (shufflePhase_cases mapOutputs) as [[Hall (g0 & E0 & _ & Hl)]|[_ E0]];
    rewrite E0 in E; [|done].
  injection E as <-.
  rewrite Hperm in Hall.
  destruct (shufflePhase_Normal mapOutputs' Hall) as (g' & -> & _ & Hl').
  exists g'. split; [done|]. intros w. rewrite Hl, Hl'.
  assert (groupOf mapOutputs w ≡ₚ groupOf mapOutputs' w) as Hg
    by (unfold groupOf; by rewrite Hperm).
  assert (Forall (fun e => numeric (entryCount e)) (groupOf mapOutputs w)) as Hn.
  { apply Forall_forall. intros e (o & Ho & _ & Hc)%groupOf_counts.
    rewrite Forall_forall in Hsafe. specialize (Hsafe o Ho w _ Hc).
    simpl in Hsafe. destruct (entryCount e); [exact I | discriminate Hsafe]. }
  assert (sumEntries (groupOf mapOutputs' w) = sumEntries (groupOf mapOutputs w)) as Hsum.
  { unfold sumEntries. rewrite !sumEntries_numbers; [|done|by rewrite <- Hg].
    by rewrite (number_sum_Permutation _ _ Hg). }
  destruct (groupOf mapOutputs w) as [|e l], (groupOf mapOutputs' w) as [|e' l'];
    try done.
  - by apply Permutation_nil_cons in Hg.
  - symmetry in Hg. by apply Permutation_nil_cons in Hg.
  - simpl. f_equal. exact Hsum.
Qed.

Lemma shuffle_reduce_order_independent_witness :
  let a := mapFunction (mkChunk 0 "x y x") in
  let b := mapFunction (mkChunk 1 "y z") in
  [a; b] ≡ₚ [b; a]
  /\ Forall (fun o => map_Forall (fun _ v => safeCount v = true) (counts o)) [a; b]
  /\ outputsTotal [a; b] <= maxSafeInteger
  /\ exists g, shufflePhase [a; b] = Normal g
       /\ exists g', shufflePhase [b; a] = Normal g'
            /\ forall w, (fun values => count (reduceFunction w values)) <$> g' !! w
                        = (fun values => count (reduceFunction w values)) <$> g !! w.
Proof.
  intros a b.
  assert (Forall (fun o => map_Forall (fun _ v => safeCount v = true) (counts o)) [a; b])
    as Hsafe by (apply (bool_decide_unpack _); by vm_compute).
  assert (outputsTotal [a; b] <= maxSafeInteger) as Hb by (vm_compute; discriminate).
  split; [apply perm_swap|]. split; [exact Hsafe|]. split; [exact Hb|].
  destruct (shufflePhase [a; b]) as [g|e] eqn:E; [|by vm_compute in E].
  exists g. split; [done|].
  exact (shuffle_reduce_order_independent [a; b] [b; a] g (perm_swap _ _ _) Hsafe Hb E).
Defined.

(** * Further properties of the job *)

Section MoreJobFacts.

(** The state of the component after a failed job. *)
Lemma runMapReduce_Throw inputText n e :
  shufflePhase (map mapFunction (splitTextIntoChunks inputText n)) = Throw e ->
  runMapReduce inputText n
  = {| chunks := splitTextIntoChunks inputText n;
       mapResults := map mapFunction (splitTextIntoChunks inputText n);
       reduceResults := []; finalCounts := ∅; failure := Some e |}.
Proof. intros E. unfold runMapReduce. by rewrite E. Qed.

Lemma chunks_constructor inputText n :
  1 <= n ->
  Forall (fun o => protoFree (counts o)) (map mapFunction (splitTextIntoChunks inputText n))
  <-> "constructor" ∉ countedWords inputText.
Proof.
  intros Hn. rewrite <- (countedWords_chunks inputText n Hn). split.
  - intros Hall Hin. apply list_elem_of_In, in_flat_map in Hin as (c & Hc & Hin).
    apply list_elem_of_In in Hc, Hin.
    rewrite Forall_forall in Hall.
    assert (mapFunction c ∈ map mapFunction (splitTextIntoChunks inputText n)) as Ho
      by (apply list_elem_of_fmap; eauto).
    by apply Hall, mapFunction_protoFree_iff in Ho.
  - intros Hnin. apply Forall_fmap, Forall_forall. intros c Hc. simpl.
    apply mapFunction_protoFree_iff. intros Hin. apply Hnin.
    apply list_elem_of_In, in_flat_map. exists c. split; by apply list_elem_of_In.
Qed.

(** What the job leaves, for every text and every [n >= 1]. *)
Lemma job_result inputText n :
  1 <= n ->
  ("constructor" ∈ countedWords inputText ->
     runMapReduce inputText n
     = {| chunks := splitTextIntoChunks inputText n;
          mapResults := map mapFunction (splitTextIntoChunks inputText n);
          reduceResults := []; finalCounts := ∅; failure := Some shuffleError |})
  /\ ("constructor" ∉ countedWords inputText ->
      failure (runMapReduce inputText n) = None
      /\ forall w, finalCounts (runMapReduce inputText n) !! w
                  = if decide (w = "__proto__") then None
                    else tally (countedWords inputText) w).
Proof.
  intros Hn. split.
  - intros Hin. apply runMapReduce_Throw, shufflePhase_Throw.
    intros Hall. by apply (chunks_constructor inputText n Hn) in Hall.
  - intros Hc. pose proof (proj2 (chunks_constructor inputText n Hn) Hc) as Hfree.
    unfold runMapReduce. set (cs := splitTextIntoChunks inputText n) in *.
    pose proof (countedWords_chunks inputText n Hn) as Hcs. fold cs in Hcs.
    destruct (shufflePhase_Normal _ Hfree) as (g & -> & Hg & Hl).
    simpl. split; [done|]. intros w. rewrite collect_lookup by done.
    destruct (decide (w ∈ JsObject.prototypeKeys)) as [Hin|Hw].
    + rewrite (protoFree_lookup g w Hg Hin). simpl.
      case_decide; [done|]. unfold tally.
      assert (w ∉ countedWords inputText) as ->%occurrences_zero; [|done].
      intros Hocc. pose proof (countedWords_lower inputText) as Hlow.
      rewrite Forall_forall in Hlow.
      destruct (lower_prototypeKey w Hin (Hlow w Hocc)) as [->| ->]; done.
    + rewrite decide_False by (intros ->; apply Hw, proto_in_prototypeKeys).
      rewrite Hl.
      pose proof (groupOf_nil cs w Hw) as Hnil.
      pose proof (sum_groupOf cs w 0 Hw) as Hsum.
      rewrite Hcs in Hnil, Hsum. unfold tally.
      destruct (groupOf (map mapFunction cs) w) as [|e l] eqn:Eg.
      * by rewrite (proj1 Hnil eq_refl).
      * simpl extendAll. simpl fmap. unfold sumEntries. rewrite Hsum.
        destruct (occurrences w (countedWords inputText)) as [|k]; [|done].
        by destruct Hnil as [_ ?%(fun f => f eq_refl)].
Qed.

Lemma occurrences_Permutation w ws ws' :
  ws ≡ₚ ws' -> occurrences w ws = occurrences w ws'.
Proof. intros H. unfold occurrences. by rewrite H. Qed.

(** The mapper ids of a group are the ids of the chunks that hold the word. *)
Lemma groupOf_ids (cs : list Chunk) w :
  w ∉ JsObject.prototypeKeys ->
  map entryMapperId (groupOf (map mapFunction cs) w)
  = map id (filter (fun c => w ∈ countedWords (text c)) cs).
Proof.
  intros Hw. induction cs as [|c cs IH]; [done|].
  rewrite map_cons, groupOf_cons, mapFunction_lookup by done. unfold tally.
  destruct (occurrences w (countedWords (text c))) as [|k] eqn:E.
  - apply occurrences_zero in E. rewrite filter_cons_False by done. apply IH.
  - assert (w ∈ countedWords (text c)) as Hin.
    { destruct (decide (w ∈ countedWords (text c))) as [|Hn]; [done|].
      apply occurrences_zero in Hn. congruence. }
    rewrite filter_cons_True by done. simpl. by rewrite IH.
Qed.

(** The state after a job that did not fail. *)
Lemma runMapReduce_Normal inputText n :
  failure (runMapReduce inputText n) = None ->
  exists g, shufflePhase (map mapFunction (splitTextIntoChunks inputText n)) = Normal g
       /\ protoFree g
       /\ (forall w, g !! w
                    = extendAll None (groupOf (map mapFunction (splitTextIntoChunks inputText n)) w))
       /\ reduceResults (runMapReduce inputText n)
          = map (fun '(w, values) => reduceFunction w values) (map_to_list g)
       /\ finalCounts (runMapReduce inputText n) = sumEntries <$> g.
Proof.
  unfold runMapReduce.
  destruct (shufflePhase_cases (map mapFunction (splitTextIntoChunks inputText n)))
    as [[_ (g & -> & Hg & Hl)]|[_ ->]]; [|done].
  intros _. exists g. split_and!; [done..|].
  simpl. apply map_eq. intros w. by rewrite collect_lookup, lookup_fmap.
Qed.

End MoreJobFacts.

(** X17. For [n >= 1] the job fails exactly when the text holds the word
    "constructor" (in any case of the letters).  It then fails with the
    [TypeError] of the shuffle, publishes the chunks and the map results,
    and leaves the reduce results and the final counts empty. *)
Theorem job_fails_iff_constructor (inputText : string) (n : Z) :
  1 <= n ->
  (failure (runMapReduce inputText n) = None
   <-> "constructor" ∉ countedWords inputText)
  /\ (failure (runMapReduce inputText n) <> None ->
      failure (runMapReduce inputText n)
      = Some (TypeError "grouped[word].push is not a function")
      /\ finalCounts (runMapReduce inputText n) = ∅
      /\ reduceResults (runMapReduce inputText n) = []
      /\ chunks (runMapReduce inputText n) = splitTextIntoChunks inputText n
      /\ mapResults (runMapReduce inputText n)
         = map mapFunction (splitTextIntoChunks inputText n)).
Proof.
  intros Hn. destruct (job_result inputText n Hn) as [Hfail Hok].
  destruct (decide ("constructor" ∈ countedWords inputText)) as [Hin|Hnin].
  - rewrite (Hfail Hin). simpl. split; [by split|done].
  - destruct (Hok Hnin) as [-> _]. split; [by split|done].
Qed.

Lemma job_fails_iff_constructor_witness :
  1 <= 2 /\ failure (runMapReduce "The Constructor pattern" 2) <> None
  /\ finalCounts (runMapReduce "The Constructor pattern" 2) = ∅.
Proof.
  assert (failure (runMapReduce "The Constructor pattern" 2) <> None) as H
    by (by vm_compute).
  split; [lia|]. split; [exact H|].
  apply (proj2 (job_fails_iff_constructor "The Constructor pattern" 2 ltac:(lia)) H).
Defined.

(** X18. For [n >= 1] and a text without the word "constructor", the final
    counts hold, for every lower-cased word of the text other than
    "__proto__", the number of its occurrences, and nothing else: the word
    "__proto__" is dropped without any error. *)
Theorem job_counts (inputText : string) (n : Z) :
  1 <= n -> "constructor" ∉ countedWords inputText ->
  forall w, finalCounts (runMapReduce inputText n) !! w
            = if decide (w = "__proto__") then None
              else match occurrences w (countedWords inputText) with
                   | O => None
                   | S c => Some (CNum (Z.of_nat (S c)))
                   end.
Proof.
  intros Hn Hc. by destruct (proj2 (job_result inputText n Hn) Hc) as [_ Hl].
Qed.

Lemma job_counts_witness :
  1 <= 2 /\ ("constructor" ∉ countedWords "a __proto__ A b")
  /\ finalCounts (runMapReduce "a __proto__ A b" 2) !! "a" = Some (CNum 2)
  /\ finalCounts (runMapReduce "a __proto__ A b" 2) !! "__proto__" = None.
Proof.
  assert ("constructor" ∉ countedWords "a __proto__ A b") as Hc
    by (apply (bool_decide_unpack _); by vm_compute).
  split; [lia|]. split; [exact Hc|].
  split; rewrite (job_counts "a __proto__ A b" 2 ltac:(lia) Hc); by vm_compute.
Defined.

(** X19. The outcome of the job depends on the text only through the
    multiset of its lower-cased words: two texts whose lower-cased words are
    the same up to their order give the same final counts and the same
    failure, for any two mapper counts [n, n' >= 1].  So the number of
    mappers, the case of the letters, the white space and the order of the
    words do not change the final counts. *)
Theorem job_depends_on_words_only (t t' : string) (n n' : Z) :
  1 <= n -> 1 <= n' -> countedWords t ≡ₚ countedWords t' ->
  finalCounts (runMapReduce t n) = finalCounts (runMapReduce t' n')
  /\ failure (runMapReduce t n) = failure (runMapReduce t' n').
Proof.
  intros Hn Hn' Hperm.
  destruct (job_result t n Hn) as [Hfail Hok].
  destruct (job_result t' n' Hn') as [Hfail' Hok'].
  destruct (decide ("constructor" ∈ countedWords t)) as [Hin|Hnin].
  - rewrite (Hfail Hin), Hfail'; [done|]. by rewrite <- Hperm.
  - assert ("constructor" ∉ countedWords t') as Hnin' by (by rewrite <- Hperm).
    destruct (Hok Hnin) as [-> Hl], (Hok' Hnin') as [-> Hl'].
    split; [|done]. apply map_eq. intros w. rewrite Hl, Hl'.
    case_decide; [done|]. unfold tally. by rewrite (occurrences_Permutation _ _ _ Hperm).
Qed.

Lemma job_depends_on_words_only_witness :
  1 <= 1 /\ 1 <= 3 /\ countedWords "b  A a" ≡ₚ countedWords "a B a"
  /\ finalCounts (runMapReduce "b  A a" 1) = finalCounts (runMapReduce "a B a" 3).
Proof.
  assert (countedWords "b  A a" ≡ₚ countedWords "a B a") as Hperm.
  { vm_compute. apply perm_swap. }
  split; [lia|]. split; [lia|]. split; [exact Hperm|].
  apply (job_depends_on_words_only "b  A a" "a B a" 1 3); [lia | lia | exact Hperm].
Defined.

(** X20. After a job that did not fail, the reduce results and the final
    counts agree: no two reduce results have the same word, every reduce
    result has its count in the final counts, and there are as many reduce
    results as final counts. *)
Theorem reduce_results_match_final_counts (inputText : string) (n : Z) :
  failure (runMapReduce inputText n) = None ->
  NoDup (map word (reduceResults (runMapReduce inputText n)))
  /\ (forall r, r ∈ reduceResults (runMapReduce inputText n) ->
                finalCounts (runMapReduce inputText n) !! word r = Some (count r))
  /\ length (reduceResults (runMapReduce inputText n))
     = size (finalCounts (runMapReduce inputText n)).
Proof.
  intros (g & _ & _ & _ & -> & ->)%runMapReduce_Normal. split_and!.
  - rewrite map_map.
    replace (map _ (map_to_list g)) with ((map_to_list g).*1);
      [apply NoDup_fst_map_to_list|].
    apply map_ext. by intros [w vs].
  - intros r ([w vs] & -> & Hin%elem_of_map_to_list)%list_elem_of_fmap.
    simpl. by rewrite lookup_fmap, Hin.
  - by rewrite length_map, length_map_to_list, map_size_fmap.
Qed.

Lemma reduce_results_match_final_counts_witness :
  failure (runMapReduce demoText 3) = None
  /\ length (reduceResults (runMapReduce demoText 3)) = 5%nat.
Proof.
  assert (failure (runMapReduce demoText 3) = None) as H by (by vm_compute).
  split; [exact H|].
  rewrite (proj2 (proj2 (reduce_results_match_final_counts demoText 3 H))).
  by vm_compute.
Defined.

(** X21. After a job that did not fail, the sources of every reduce result
    are the labels "Mapper-i" of exactly the chunks whose text holds the
    word, in the order of the chunks. *)
Theorem reduce_sources (inputText : string) (n : Z) :
  failure (runMapReduce inputText n) = None ->
  forall r, r ∈ reduceResults (runMapReduce inputText n) ->
    sources r
    = map (fun c => mapperLabel (id c))
          (filter (fun c => word r ∈ countedWords (text c))
                  (splitTextIntoChunks inputText n)).
Proof.
  intros (g & _ & Hg & Hl & -> & _)%runMapReduce_Normal r
         ([w vs] & -> & Hin%elem_of_map_to_list)%list_elem_of_fmap.
  simpl.
  assert (w ∉ JsObject.prototypeKeys) as Hw.
  { intros Hk. by rewrite (protoFree_lookup g w Hg Hk) in Hin. }
  rewrite Hl in Hin.
  assert (vs = groupOf (map mapFunction (splitTextIntoChunks inputText n)) w) as ->.
  { destruct (groupOf _ w); [done|]. simpl in Hin. by injection Hin as <-. }
  rewrite <- (map_map id mapperLabel), <- (groupOf_ids _ w Hw), map_map. done.
Qed.

Lemma reduce_sources_witness :
  failure (runMapReduce demoText 3) = None
  /\ forall r, r ∈ reduceResults (runMapReduce demoText 3) -> word r = "world" ->
       sources r = [ "Mapper-0"; "Mapper-2" ].
Proof.
  assert (failure (runMapReduce demoText 3) = None) as H by (by vm_compute).
  split; [exact H|]. intros r Hr Hw.
  rewrite (reduce_sources demoText 3 H r Hr), Hw. by vm_compute.
Defined.

(** X22. After a job with [n >= 1] the panel of the final word counts is
    shown exactly when the text lacks the word "constructor" and has at
    least one word other than "__proto__". *)
Theorem final_panel_shown (inputText : string) (n : Z) :
  1 <= n ->
  finalPanelShown (finalCounts (runMapReduce inputText n)) = true
  <-> ("constructor" ∉ countedWords inputText)
      /\ exists w, w ∈ countedWords inputText /\ w <> "__proto__".
Proof.
  intros Hn. destruct (job_result inputText n Hn) as [Hfail Hok].
  unfold finalPanelShown. rewrite bool_decide_eq_true. split.
  - intros Hsize.
    destruct (decide ("constructor" ∈ countedWords inputText)) as [Hin|Hnin].
    { rewrite (Hfail Hin) in Hsize. simpl in Hsize. rewrite map_size_empty in Hsize. lia. }
    split; [done|]. destruct (Hok Hnin) as [_ Hl].
    assert (finalCounts (runMapReduce inputText n) <> ∅) as Hne.
    { apply map_size_non_empty_iff. lia. }
    apply map_choose in Hne as (w & v & Hw). rewrite Hl in Hw.
    case_decide; [done|]. exists w. split; [|done].
    destruct (decide (w ∈ countedWords inputText)) as [|Hn']; [done|].
    apply occurrences_zero in Hn'. unfold tally in Hw. by rewrite Hn' in Hw.
  - intros [Hnin (w & Hw & Hp)]. destruct (Hok Hnin) as [_ Hl].
    assert (finalCounts (runMapReduce inputText n) <> ∅) as Hne.
    { intros E. specialize (Hl w). rewrite E, lookup_empty, decide_False in Hl by done.
      unfold tally in Hl.
      destruct (occurrences w (countedWords inputText)) eqn:Eo; [|done].
      by apply occurrences_zero in Eo. }
    apply map_size_non_empty_iff in Hne. lia.
Qed.

Lemma final_panel_shown_witness :
  1 <= 2 /\ finalPanelShown (finalCounts (runMapReduce "hello __proto__" 2)) = true.
Proof.
  split; [lia|].
  apply (proj2 (final_panel_shown "hello __proto__" 2 ltac:(lia))).
  split; [apply (bool_decide_unpack _); by vm_compute|].
  exists "hello". split; [apply (bool_decide_unpack _); by vm_compute | done].
Defined.
